(** * OpenAPI v2 document generation of pkg/applyconfiguration/openapi.go

    A shallow embedding of the reference pipeline of
    [buildOpenAPISchema]: allOf reference resolution
    ([resolveAllOfRefs]), reference conversion ([convertRefs]), the
    assembly of the definitions map, alias resolution
    ([resolveRefDefinitions]) and the OpenAPI v2 clean-up
    ([sanitizeForOpenAPIV2]).

    Go values of type [map[string]any] are finite maps [gmap string json];
    a Go [map] that the code ranges over is visited in an order the
    language leaves open, so every loop over a map takes the visiting
    order as an explicit list. *)

From stdpp Require Import gmap strings list fin_maps.
From Stdlib Require Import Ascii String.

Set Warnings "-register-all".
Open Scope string_scope.

(** ** Decoded JSON values ([any] after [json.Unmarshal]) *)

(** [json.Unmarshal] into [any] yields nil, bool, float64, string, [[]any]
    and [map[string]any]. The pipeline never inspects a number, so the
    numeric payload is kept as an integer. *)
Inductive json : Type :=
| JNull
| JBool (b : bool)
| JNumber (n : Z)
| JString (s : string)
| JArray (l : list json)
| JObject (m : gmap string json).

Fixpoint jsize (v : json) : nat :=
  match v with
  | JArray l => S (foldr (λ x acc, jsize x + acc) 0 l)
  | JObject m => S (map_fold (λ _ x acc, jsize x + acc) 0 m)
  | _ => 1
  end.

(** ** sanitizeForOpenAPIV2 (openapi.go, lines 316-353) *)

(** The keys removed by the [delete] calls of lines 320-328: [type] and
    [format] only next to a [$ref], the four v3-only keys always. *)
Definition droppedKey (hasRef : bool) (k : string) : bool :=
  (hasRef && bool_decide (k ∈ ["type"; "format"]))
  || bool_decide (k ∈ ["nullable"; "anyOf"; "oneOf"; "not"]).

(** The recursion of lines 330-352 into one field: the values of
    [properties] and the entries of [allOf] that are objects, and [items]
    and [additionalProperties] when they are objects. [rec] sanitizes a
    value that is an object and returns any other value as it is. *)
Definition sanitizeField (rec : json → json) (k : string) (field : json) : json :=
  if decide (k = "properties") then
    match field with JObject props => JObject (rec <$> props) | _ => field end
  else if decide (k = "items" ∨ k = "additionalProperties") then
    match field with JObject _ => rec field | _ => field end
  else if decide (k = "allOf") then
    match field with JArray allOf => JArray (rec <$> allOf) | _ => field end
  else field.

(** [sanitizeFragment v] is the guarded call
    [if m, ok := v.(map[string]any); ok { sanitizeForOpenAPIV2(m) }]:
    the in-place update of the object is returned as the new object. Each
    field is dropped, recursed into, or kept; [sanitize_source_order]
    below shows this is the statement sequence of the Go function. *)
Fixpoint sanitizeFragment (v : json) : json :=
  match v with
  | JObject schema =>
      let hasRef := bool_decide (is_Some (schema !! "$ref")) in
      JObject (map_imap (λ k field,
        if droppedKey hasRef k then None
        else Some (sanitizeField sanitizeFragment k field)) schema)
  | _ => v
  end.

Definition sanitizeForOpenAPIV2 (schema : gmap string json) : gmap string json :=
  let hasRef := bool_decide (is_Some (schema !! "$ref")) in
  map_imap (λ k field,
    if droppedKey hasRef k then None
    else Some (sanitizeField sanitizeFragment k field)) schema.

(** The Go statements in their order, on an immutable map: the deletes of
    lines 320-328 first, then the four recursions of lines 330-352, each
    writing the cleaned child back under its key. *)
Definition sanitizeSteps (schema : gmap string json) : gmap string json :=
  let s1 := if bool_decide (is_Some (schema !! "$ref"))
            then delete "format" (delete "type" schema) else schema in
  let s2 := delete "not" (delete "oneOf" (delete "anyOf" (delete "nullable" s1))) in
  let s3 := match s2 !! "properties" with
            | Some (JObject props) =>
                <["properties" := JObject (sanitizeFragment <$> props)]> s2
            | _ => s2
            end in
  let s4 := match s3 !! "items" with
            | Some (JObject items) =>
                <["items" := JObject (sanitizeForOpenAPIV2 items)]> s3
            | _ => s3
            end in
  let s5 := match s4 !! "additionalProperties" with
            | Some (JObject addProps) =>
                <["additionalProperties" := JObject (sanitizeForOpenAPIV2 addProps)]> s4
            | _ => s4
            end in
  match s5 !! "allOf" with
  | Some (JArray allOf) => <["allOf" := JArray (sanitizeFragment <$> allOf)]> s5
  | _ => s5
  end.

(** *** Paths into a JSON schema *)

(** One step from a fragment to a nested fragment, along the four
    structural fields the sanitizer follows. *)
Inductive jstep : Type :=
| JProperty (name : string)
| JItems
| JAdditionalProperties
| JAllOf (i : nat).

Definition asObject (v : json) : option (gmap string json) :=
  match v with JObject m => Some m | _ => None end.

Definition jchild (st : jstep) (schema : gmap string json) : option (gmap string json) :=
  match st with
  | JProperty name =>
      props ← schema !! "properties" ≫= asObject;
      props !! name ≫= asObject
  | JItems => schema !! "items" ≫= asObject
  | JAdditionalProperties => schema !! "additionalProperties" ≫= asObject
  | JAllOf i =>
      match schema !! "allOf" with
      | Some (JArray allOf) => allOf !! i ≫= asObject
      | _ => None
      end
  end.

Fixpoint fragmentAt (path : list jstep) (schema : gmap string json)
  : option (gmap string json) :=
  match path with
  | [] => Some schema
  | st :: rest => jchild st schema ≫= fragmentAt rest
  end.

(** Vendor extensions are the keys with the [x-] prefix, such as
    [x-kubernetes-map-type]. *)
Definition isVendorKey (k : string) : bool := String.prefix "x-" k.

(** ** Results of the fallible stages *)

(** The errors [resolveAllOfRefs] returns, named after their messages. The
    first is the taxonomy's MalformedReference, the next two are its
    UnresolvedReference; [MarshalError] stands for a failure of
    [json.Marshal] or [json.Unmarshal]. *)
Inductive GenError : Type :=
| MalformedReference (ref : string)
| PackageNotFound (pkgPath ref : string)
| SchemaNotFound (typeName pkgPath : string)
| MarshalError (name : string).

(** [OutOfFuel] is not a Go outcome: it marks a run of the model whose
    recursion budget was too small, which is how a call that does not
    return (cyclic embedding) shows. *)
Inductive result (A : Type) : Type :=
| Ok (a : A)
| Err (e : GenError)
| OutOfFuel.
Arguments Ok {A} a.
Arguments Err {A} e.
Arguments OutOfFuel {A}.

Definition result_bind {A B} (f : A → result B) (r : result A) : result B :=
  match r with
  | Ok a => f a
  | Err e => Err e
  | OutOfFuel => OutOfFuel
  end.

#[global] Instance result_ret : MRet result := λ A a, Ok a.
#[global] Instance result_mbind : MBind result := λ A B f r, result_bind f r.
#[global] Instance result_fmap : FMap result :=
  λ A B f r, result_bind (λ a, Ok (f a)) r.

(** A loop [for k, v := range m] that rewrites every value and returns at
    the first error. *)
Definition map_mapM {A B} (f : A → result B) (m : gmap string A)
  : result (gmap string B) :=
  map_fold (λ k v acc, acc ← acc; v' ← f v; Ok (<[k := v']> acc)) (Ok ∅) m.

(** ** The schema struct (apiextensionsv1.JSONSchemaProps) *)

Module JSONSchemaPropsOrArray.
Record t (S : Type) : Type := mk { Schema : option S; JSONSchemas : list S }.
Arguments mk {S} _ _.
Arguments Schema {S} _.
Arguments JSONSchemas {S} _.
End JSONSchemaPropsOrArray.

Module JSONSchemaPropsOrBool.
Record t (S : Type) : Type := mk { Allows : bool; Schema : option S }.
Arguments mk {S} _ _.
Arguments Allows {S} _.
Arguments Schema {S} _.
End JSONSchemaPropsOrBool.

(** The fields of the struct the pipeline reads or writes, with the
    version-specific ones the sanitizer later removes and one vendor
    extension. A nil pointer is [None]; [Type_] is the Go field [Type]. *)
Inductive JSONSchemaProps : Type := mkJSONSchemaProps {
  Ref : option string;
  Type_ : string;
  Format : string;
  Nullable : bool;
  Properties : gmap string JSONSchemaProps;
  Items : option (JSONSchemaPropsOrArray.t JSONSchemaProps);
  AdditionalProperties : option (JSONSchemaPropsOrBool.t JSONSchemaProps);
  AllOf : list JSONSchemaProps;
  OneOf : list JSONSchemaProps;
  AnyOf : list JSONSchemaProps;
  Not : option JSONSchemaProps;
  XMapType : option string }.

(** [schema.Items.Schema] and [schema.AdditionalProperties.Schema] behind
    their nil checks. *)
Definition itemsSchema (schema : JSONSchemaProps) : option JSONSchemaProps :=
  Items schema ≫= JSONSchemaPropsOrArray.Schema.

Definition additionalPropertiesSchema (schema : JSONSchemaProps)
  : option JSONSchemaProps :=
  AdditionalProperties schema ≫= JSONSchemaPropsOrBool.Schema.

(** [x.Ref != nil && len( *x.Ref) > 0] *)
Definition hasRef (schema : JSONSchemaProps) : bool :=
  match Ref schema with
  | Some ref => negb (String.eqb ref EmptyString)
  | None => false
  end.

(** loader.Package: a package is identified by its import path (the
    loader holds one [*Package] per path, so pointer equality is path
    equality). *)
Record Package : Type := { PkgPath : string }.

#[global] Instance Package_eq_dec : EqDecision Package.
Proof. solve_decision. Defined.

#[global] Instance Package_countable : Countable Package :=
  inj_countable' PkgPath (λ p, {| PkgPath := p |}) (λ x, match x with Build_Package _ => eq_refl end).

(** crd.TypeIdent; [Package_] is the Go field [Package], nil being
    [None]. *)
Record TypeIdent : Type := { Package_ : option Package; Name : string }.

#[global] Instance TypeIdent_eq_dec : EqDecision TypeIdent.
Proof. solve_decision. Defined.

#[global] Instance TypeIdent_countable : Countable TypeIdent :=
  inj_countable' (λ i, (Package_ i, Name i))
    (λ p, {| Package_ := p.1; Name := p.2 |})
    (λ x, match x with Build_TypeIdent _ _ => eq_refl end).

(** schema.GroupVersion *)
Record GroupVersion : Type := { Group : string; Version : string }.

(** ** Functions of other packages *)

(** What the pipeline calls outside openapi.go. [RefParts] returns the
    type name and the package path of an internal reference, [None]
    standing for its error; [jsonRoundTrip] is [json.Marshal] of the
    struct followed by [json.Unmarshal] into a [map[string]any]. *)
Class Collaborators : Type := {
  RefParts : string → option (string * string);
  ToRESTFriendlyName : string → string;
  FlattenEmbedded : JSONSchemaProps → option Package → JSONSchemaProps;
  jsonRoundTrip : JSONSchemaProps → result (gmap string json) }.

(** strings.TrimPrefix *)
Definition trimPrefix (s pre : string) : string :=
  if String.prefix pre s
  then String.substring (String.length pre) (String.length s - String.length pre) s
  else s.

Section Pipeline.
Context `{!Collaborators}.

(** ** resolveAllOfRefs (openapi.go, lines 178-234) *)

(** The body of the loop over [schema.AllOf] for one entry, [rec] being
    the recursive call at the remaining budget. An entry with a non-empty
    reference is replaced by the resolved copy of the schema it names;
    any other entry is resolved in place. *)
Definition resolveAllOfEntry
    (rec : JSONSchemaProps → option Package → result JSONSchemaProps)
    (contextPkg : option Package)
    (Schemata : gmap TypeIdent JSONSchemaProps)
    (pkgByPath : gmap string Package)
    (entry : JSONSchemaProps) : result JSONSchemaProps :=
  if hasRef entry then
    let ref := default EmptyString (Ref entry) in
    match RefParts ref with
    | None => Err (MalformedReference ref)
    | Some (typeName, pkgPath) =>
        let pkg := if decide (pkgPath = EmptyString) then contextPkg
                   else pkgByPath !! pkgPath in
        match pkg with
        | None => Err (PackageNotFound pkgPath ref)
        | Some pkg =>
            match Schemata !! {| Package_ := Some pkg; Name := typeName |} with
            | None => Err (SchemaNotFound typeName (PkgPath pkg))
            | Some refSchema => rec refSchema (Some pkg)
            end
        end
    end
  else rec entry contextPkg.

(** The Go function recurses without a bound; [fuel] bounds the depth of
    the calls. The in-place update of [schema] is returned as the new
    schema; on an error the partly updated schema is dropped, as the
    caller drops it. *)
Fixpoint resolveAllOfRefs (fuel : nat) (schema : JSONSchemaProps)
    (contextPkg : option Package)
    (Schemata : gmap TypeIdent JSONSchemaProps)
    (pkgByPath : gmap string Package) : result JSONSchemaProps :=
  match fuel with
  | 0 => OutOfFuel
  | S fuel =>
      let rec := λ s pkg, resolveAllOfRefs fuel s pkg Schemata pkgByPath in
      allOf ← mapM (resolveAllOfEntry rec contextPkg Schemata pkgByPath)
                   (AllOf schema);
      properties ← map_mapM (λ v, rec v contextPkg) (Properties schema);
      items ←
        match Items schema with
        | Some (JSONSchemaPropsOrArray.mk (Some s) arr) =>
            s' ← rec s contextPkg;
            Ok (Some (JSONSchemaPropsOrArray.mk (Some s') arr))
        | other => Ok other
        end;
      additionalProperties ←
        match AdditionalProperties schema with
        | Some (JSONSchemaPropsOrBool.mk allows (Some s)) =>
            s' ← rec s contextPkg;
            Ok (Some (JSONSchemaPropsOrBool.mk allows (Some s')))
        | other => Ok other
        end;
      Ok {| Ref := Ref schema;
            Type_ := Type_ schema;
            Format := Format schema;
            Nullable := Nullable schema;
            Properties := properties;
            Items := items;
            AdditionalProperties := additionalProperties;
            AllOf := allOf;
            OneOf := OneOf schema;
            AnyOf := AnyOf schema;
            Not := Not schema;
            XMapType := XMapType schema |}
  end.

(** ** convertRefs (openapi.go, lines 239-268) *)

(** Lines 244-253: the new value of [schema.Ref]. *)
Definition convertRef (contextPkg : option Package) (ref : option string)
  : option string :=
  match ref with
  | Some r =>
      if negb (String.eqb r EmptyString) then
        match RefParts r with
        | Some (typeName, pkgPath) =>
            let pkgPath :=
              match contextPkg with
              | Some pkg => if decide (pkgPath = EmptyString) then PkgPath pkg else pkgPath
              | None => pkgPath
              end in
            Some ("#/definitions/" ++ ToRESTFriendlyName (pkgPath ++ "." ++ typeName))
        | None => ref
        end
      else ref
  | None => None
  end.

Fixpoint convertRefs (schema : JSONSchemaProps) (contextPkg : option Package)
  : JSONSchemaProps :=
  {| Ref := convertRef contextPkg (Ref schema);
     Type_ := Type_ schema;
     Format := Format schema;
     Nullable := Nullable schema;
     Properties := (λ v, convertRefs v contextPkg) <$> Properties schema;
     Items :=
       (λ it, JSONSchemaPropsOrArray.mk
                ((λ v, convertRefs v contextPkg) <$> JSONSchemaPropsOrArray.Schema it)
                (JSONSchemaPropsOrArray.JSONSchemas it)) <$> Items schema;
     AdditionalProperties :=
       (λ ap, JSONSchemaPropsOrBool.mk (JSONSchemaPropsOrBool.Allows ap)
                ((λ v, convertRefs v contextPkg) <$> JSONSchemaPropsOrBool.Schema ap))
         <$> AdditionalProperties schema;
     AllOf := (λ v, convertRefs v contextPkg) <$> AllOf schema;
     OneOf := OneOf schema;
     AnyOf := AnyOf schema;
     Not := Not schema;
     XMapType := XMapType schema |}.

(** *** Paths into a schema struct *)

Inductive step : Type :=
| InProperty (name : string)
| InAllOf (i : nat)
| InItems
| InAdditionalProperties.

Definition child (st : step) (schema : JSONSchemaProps) : option JSONSchemaProps :=
  match st with
  | InProperty name => Properties schema !! name
  | InAllOf i => AllOf schema !! i
  | InItems => itemsSchema schema
  | InAdditionalProperties => additionalPropertiesSchema schema
  end.

Fixpoint subschema (path : list step) (schema : JSONSchemaProps)
  : option JSONSchemaProps :=
  match path with
  | [] => Some schema
  | st :: rest => child st schema ≫= subschema rest
  end.

(** A path that never enters [allOf]. *)
Definition outsideAllOf (path : list step) : Prop :=
  Forall (λ st, match st with InAllOf _ => False | _ => True end) path.

(** ** resolveRefDefinitions (openapi.go, lines 276-310) *)

Definition refPrefix : string := "#/definitions/".

(** Lines 300-307: [maps.Copy] of the target into the empty map, then
    every field of the alias but [$ref] written over it. The copy is
    shallow; nothing mutates a definition after this point, so sharing
    the nested values with the target is not observable. *)
Definition mergeExtras (targetMap defMap : gmap string json) : gmap string json :=
  map_fold (λ k v resolved,
              if decide (k = "$ref") then resolved else <[k := v]> resolved)
           (targetMap ∪ ∅) defMap.

(** The body of the loop for one key. *)
Definition resolveRefDefinition (definitions : gmap string json) (key : string)
  : gmap string json :=
  match definitions !! key with
  | Some (JObject defMap) =>
      match defMap !! "$ref" with
      | Some (JString ref) =>
          let targetKey := trimPrefix ref refPrefix in
          match definitions !! targetKey with
          | Some (JObject targetMap) =>
              <[key := JObject (mergeExtras targetMap defMap)]> definitions
          | _ => definitions
          end
      | _ => definitions
      end
  | _ => definitions
  end.

(** [order] lists the keys as the [range] over [definitions] yields them. *)
Definition resolveRefDefinitions (order : list string)
    (definitions : gmap string json) : gmap string json :=
  foldl resolveRefDefinition definitions order.

(** ** buildOpenAPISchema (openapi.go, lines 41-169) *)

(** Lines 85-90. *)
Definition buildPkgByPath (Schemata : gmap TypeIdent JSONSchemaProps)
  : gmap string Package :=
  map_fold (λ ident _ pkgByPath,
              match Package_ ident with
              | Some pkg => <[PkgPath pkg := pkg]> pkgByPath
              | None => pkgByPath
              end) ∅ Schemata.

(** Lines 120-124. *)
Definition definitionKey (ident : TypeIdent) : string :=
  let pkgPath := match Package_ ident with Some pkg => PkgPath pkg | None => EmptyString end in
  ToRESTFriendlyName (pkgPath ++ "." ++ Name ident).

(** Lines 95-115: the schema of one type as a JSON object, after allOf
    resolution, flattening and reference conversion. *)
Definition renderSchema (fuel : nat) (Schemata : gmap TypeIdent JSONSchemaProps)
    (ident : TypeIdent) (s : JSONSchemaProps) : result (gmap string json) :=
  schema ← resolveAllOfRefs fuel s (Package_ ident) Schemata (buildPkgByPath Schemata);
  let schema := FlattenEmbedded schema (Package_ ident) in
  let schema := convertRefs schema (Package_ ident) in
  jsonRoundTrip schema.

(** Lines 126-135. *)
Definition annotateGVK (root : Package) (gv : GroupVersion) (crdTypeSet : gset string)
    (ident : TypeIdent) (schemaMap : gmap string json) : gmap string json :=
  if bool_decide (Package_ ident = Some root) && bool_decide (Name ident ∈ crdTypeSet)
  then <["x-kubernetes-group-version-kind" :=
           JArray [JObject {[ "group" := JString (Group gv);
                              "version" := JString (Version gv);
                              "kind" := JString (Name ident) ]}]]> schemaMap
  else schemaMap.

(** The body of the loop of lines 94-138 for one type: its key and its
    definition. *)
Definition schemaDefinition (fuel : nat) (root : Package) (gv : GroupVersion)
    (crdTypeSet : gset string) (Schemata : gmap TypeIdent JSONSchemaProps)
    (ident : TypeIdent) (s : JSONSchemaProps) : result (string * gmap string json) :=
  schemaMap ← renderSchema fuel Schemata ident s;
  let schemaMap := sanitizeForOpenAPIV2 schemaMap in
  let key := definitionKey ident in
  Ok (key, annotateGVK root gv crdTypeSet ident schemaMap).

(** The loop of lines 94-138; [order] lists the identifiers as the
    [range] over [p.Schemata] yields them. *)
Fixpoint collectDefinitions (fuel : nat) (root : Package) (gv : GroupVersion)
    (crdTypeSet : gset string) (Schemata : gmap TypeIdent JSONSchemaProps)
    (order : list TypeIdent) (definitions : gmap string json)
  : result (gmap string json) :=
  match order with
  | [] => Ok definitions
  | ident :: rest =>
      match Schemata !! ident with
      | Some s =>
          '(key, schemaMap) ← schemaDefinition fuel root gv crdTypeSet Schemata ident s;
          collectDefinitions fuel root gv crdTypeSet Schemata rest
            (<[key := JObject schemaMap]> definitions)
      | None => collectDefinitions fuel root gv crdTypeSet Schemata rest definitions
      end
  end.

(** Lines 93-140: the definitions of the document. *)
Definition buildDefinitions (fuel : nat) (root : Package) (gv : GroupVersion)
    (crdTypeSet : gset string) (Schemata : gmap TypeIdent JSONSchemaProps)
    (order : list TypeIdent) (aliasOrder : list string)
  : result (gmap string json) :=
  definitions ← collectDefinitions fuel root gv crdTypeSet Schemata order ∅;
  Ok (resolveRefDefinitions aliasOrder definitions).

(** Lines 142-150. *)
Definition swaggerDocument (definitions : gmap string json) : gmap string json :=
  {[ "swagger" := JString "2.0";
     "info" := JObject {[ "title" := JString "Kubernetes CRD Swagger";
                          "version" := JString "v0.1.0" ]};
     "paths" := JObject ∅;
     "definitions" := JObject definitions ]}.

(** The function from line 80 on, given the root types and the schemata
    the parser collected: [None] is the empty result of line 81, [Some]
    the document that is then serialized and written to the temporary
    file. *)
Definition buildOpenAPISchema (fuel : nat) (root : Package) (gv : GroupVersion)
    (crdTypeSet : gset string) (Schemata : gmap TypeIdent JSONSchemaProps)
    (order : list TypeIdent) (aliasOrder : list string)
  : result (option (gmap string json)) :=
  if decide (crdTypeSet = ∅) then Ok None
  else
    definitions ← buildDefinitions fuel root gv crdTypeSet Schemata order aliasOrder;
    Ok (Some (swaggerDocument definitions)).

(** *** The stage order as the specification words it *)

(** The same loop without the sanitizer call of line 118. *)
Fixpoint collectUnsanitized (fuel : nat) (root : Package) (gv : GroupVersion)
    (crdTypeSet : gset string) (Schemata : gmap TypeIdent JSONSchemaProps)
    (order : list TypeIdent) (definitions : gmap string json)
  : result (gmap string json) :=
  match order with
  | [] => Ok definitions
  | ident :: rest =>
      match Schemata !! ident with
      | Some s =>
          schemaMap ← renderSchema fuel Schemata ident s;
          collectUnsanitized fuel root gv crdTypeSet Schemata rest
            (<[definitionKey ident :=
                 JObject (annotateGVK root gv crdTypeSet ident schemaMap)]> definitions)
      | None => collectUnsanitized fuel root gv crdTypeSet Schemata rest definitions
      end
  end.

(** Stage 7 after stage 6: the sanitizer applied to every definition of
    the alias-resolved map. *)
Definition buildDefinitionsSanitizeLast (fuel : nat) (root : Package)
    (gv : GroupVersion) (crdTypeSet : gset string)
    (Schemata : gmap TypeIdent JSONSchemaProps)
    (order : list TypeIdent) (aliasOrder : list string)
  : result (gmap string json) :=
  definitions ← collectUnsanitized fuel root gv crdTypeSet Schemata order ∅;
  Ok (sanitizeFragment <$> resolveRefDefinitions aliasOrder definitions).

End Pipeline.

(** ** The nested calls of resolveAllOfRefs *)

Section ResolverCalls.
Context `{!Collaborators}.
Variables (Schemata : gmap TypeIdent JSONSchemaProps)
          (pkgByPath : gmap string Package).

(** Lines 185-199: the reference of [entry], met in the context
    [contextPkg], parses and names the schema [target] of the package
    [pkg]. *)
Definition refersTo (contextPkg : option Package) (entry target : JSONSchemaProps)
    (pkg : Package) : Prop :=
  ∃ ref typeName pkgPath,
    Ref entry = Some ref
    ∧ RefParts ref = Some (typeName, pkgPath)
    ∧ (if decide (pkgPath = EmptyString) then contextPkg
       else pkgByPath !! pkgPath) = Some pkg
    ∧ Schemata !! {| Package_ := Some pkg; Name := typeName |} = Some target.

(** The nested calls the walk makes on a schema in a context: on the
    schema that an [allOf] entry with a reference names, in the package
    of that schema (line 204); and in the same context on every other
    [allOf] entry (line 211), on each property (line 219), and on the
    schema of [items] and of [additionalProperties] (lines 225, 230). *)
Inductive calls : relation (JSONSchemaProps * option Package) :=
| calls_embedded schema contextPkg i entry target pkg :
    AllOf schema !! i = Some entry → hasRef entry = true →
    refersTo contextPkg entry target pkg →
    calls (schema, contextPkg) (target, Some pkg)
| calls_in_place schema contextPkg st t :
    child st schema = Some t →
    (∀ i, st = InAllOf i → hasRef t = false) →
    calls (schema, contextPkg) (t, contextPkg).

(** Every reference among the [allOf] entries of the schema can be
    followed. *)
Definition refsResolve (x : JSONSchemaProps * option Package) : Prop :=
  ∀ i entry, AllOf x.1 !! i = Some entry → hasRef entry = true →
    ∃ target pkg, refersTo x.2 entry target pkg.

(** The call on [x] and every call nested in it can follow its
    references, and the calls nest fewer than [n] deep. *)
Fixpoint resolvesWithin (n : nat) (x : JSONSchemaProps * option Package) : Prop :=
  match n with
  | 0 => False
  | S n => refsResolve x ∧ ∀ y, calls x y → resolvesWithin n y
  end.

(** The schemas the walk from [x] reaches, each with its context. *)
Definition reaches : relation (JSONSchemaProps * option Package) := rtc calls.

(** A schema embedded along the walk from [x]: one that an [allOf] entry
    of a schema the walk reaches names by its reference. *)
Definition embedded (x : JSONSchemaProps * option Package)
    (target : JSONSchemaProps) : Prop :=
  ∃ t contextPkg i entry pkg,
    reaches x (t, contextPkg) ∧ AllOf t !! i = Some entry
    ∧ hasRef entry = true ∧ refersTo contextPkg entry target pkg.

End ResolverCalls.

(** ** The collaborators, for the worked examples

    The theorems hold for every instance of [Collaborators]; the worked
    examples run the pipeline with the instance [reference] below. *)

(** strings.Split for a one-byte separator. *)
Fixpoint splitOn (sep : ascii) (s : string) : list string :=
  match s with
  | EmptyString => [EmptyString]
  | String c rest =>
      if Ascii.eqb c sep then EmptyString :: splitOn sep rest
      else match splitOn sep rest with
           | first :: others => String c first :: others
           | [] => [String c EmptyString]
           end
  end.

(** strings.Contains for a one-byte pattern. *)
Fixpoint containsByte (c : ascii) (s : string) : bool :=
  match s with
  | EmptyString => false
  | String d rest => Ascii.eqb c d || containsByte c rest
  end.

(** strings.Replace(s, old, new, -1) for a two-byte [old]. *)
Fixpoint replacePair (a b : ascii) (new : string) (s : string) : string :=
  match s with
  | EmptyString => EmptyString
  | String c rest =>
      match rest with
      | String d rest' =>
          if Ascii.eqb c a && Ascii.eqb d b
          then new ++ replacePair a b new rest'
          else String c (replacePair a b new rest)
      | EmptyString => s
      end
  end.

(** strings.SplitN(s, sep, 2) for a one-byte separator: the text before
    the first separator and, when there is one, the text after it. *)
Fixpoint splitFirst (sep : ascii) (s : string) : string * option string :=
  match s with
  | EmptyString => (EmptyString, None)
  | String c rest =>
      if Ascii.eqb c sep then (EmptyString, Some rest)
      else let '(first, others) := splitFirst sep rest in (String c first, others)
  end.

Module Crd.

(** Modelled from the spec: crd.RefParts, the parser of internal
    references, belongs to package pkg/crd and is only called here. The
    internal format is the one convertRefs documents,
    [#/definitions/pkg~1path~0TypeName], with the JSON-pointer escapes
    [~1] for [/] and [~0] for [~], and [#/definitions/TypeName] for a
    type of the current package; a string without the [#/definitions/]
    prefix fails to parse. *)
Definition RefParts (ref : string) : option (string * string) :=
  if String.prefix "#/definitions/" ref then
    let ref := trimPrefix ref "#/definitions/" in
    let ref := replacePair "~" "1" "/" ref in
    let ref := replacePair "~" "0" "~" ref in
    match splitFirst "~" ref with
    | (typeName, None) => Some (typeName, EmptyString)
    | (pkgPath, Some typeName) => Some (typeName, pkgPath)
    end
  else None.

(** Modelled from the spec: crd.FlattenEmbedded, the embedding-flattening
    primitive, belongs to package pkg/crd and is only called here. It
    takes a fragment whose [allOf] is resolved and returns one with the
    embedded properties merged into the top-level [properties]; a
    fragment without [allOf] entries is returned as it is. *)
Fixpoint FlattenEmbedded (schema : JSONSchemaProps) (pkg : option Package)
  : JSONSchemaProps :=
  let embedded := (λ e, Properties (FlattenEmbedded e pkg)) <$> AllOf schema in
  {| Ref := Ref schema;
     Type_ := Type_ schema;
     Format := Format schema;
     Nullable := Nullable schema;
     Properties := foldl (λ props e, props ∪ e) (Properties schema) embedded;
     Items := Items schema;
     AdditionalProperties := AdditionalProperties schema;
     AllOf := [];
     OneOf := OneOf schema;
     AnyOf := AnyOf schema;
     Not := Not schema;
     XMapType := XMapType schema |}.

End Crd.

Module Util.

(** Modelled from the spec: the name-friendliness transform is
    util.ToRESTFriendlyName of the kube-openapi library. The name is
    split at [/], the dot-separated parts of its first segment are
    reversed ([k8s.io] becomes [io.k8s]), and the segments are joined
    with [.]: [k8s.io/api/core/v1.Pod] becomes [io.k8s.api.core.v1.Pod]. *)
Definition ToRESTFriendlyName (name : string) : string :=
  match splitOn "/" name with
  | first :: others =>
      let first := if containsByte "." first
                   then String.concat "." (rev (splitOn "." first))
                   else first in
      String.concat "." (first :: others)
  | [] => EmptyString
  end.

End Util.

(** A field with the [omitempty] tag. *)
Definition optionalField (k : string) (v : option json) (m : gmap string json)
  : gmap string json :=
  match v with
  | Some v => <[k := v]> m
  | None => m
  end.

Definition nonEmptyString (s : string) : option json :=
  if String.eqb s EmptyString then None else Some (JString s).

Definition nonEmptyArray (l : list json) : option json :=
  match l with [] => None | _ => Some (JArray l) end.

(** Modelled from the spec: the serialized schema object of a fragment,
    as [json.Marshal] writes the struct and [json.Unmarshal] reads it
    back. Every field has the [omitempty] tag; [items] is the schema or
    the array of schemas it holds, [additionalProperties] the schema or
    the boolean. *)
Fixpoint marshalSchema (schema : JSONSchemaProps) : json :=
  let nested := λ s, marshalSchema s in
  JObject
    (optionalField "$ref" (JString <$> Ref schema)
    (optionalField "type" (nonEmptyString (Type_ schema))
    (optionalField "format" (nonEmptyString (Format schema))
    (optionalField "nullable" (if Nullable schema then Some (JBool true) else None)
    (optionalField "properties"
       (if decide (Properties schema = ∅) then None
        else Some (JObject (nested <$> Properties schema)))
    (optionalField "items"
       ((λ it, match JSONSchemaPropsOrArray.JSONSchemas it with
               | [] => from_option nested JNull (JSONSchemaPropsOrArray.Schema it)
               | arr => JArray (nested <$> arr)
               end) <$> Items schema)
    (optionalField "additionalProperties"
       ((λ ap, match JSONSchemaPropsOrBool.Schema ap with
               | Some s => nested s
               | None => JBool (JSONSchemaPropsOrBool.Allows ap)
               end) <$> AdditionalProperties schema)
    (optionalField "allOf" (nonEmptyArray (nested <$> AllOf schema))
    (optionalField "oneOf" (nonEmptyArray (nested <$> OneOf schema))
    (optionalField "anyOf" (nonEmptyArray (nested <$> AnyOf schema))
    (optionalField "not" (nested <$> Not schema)
    (optionalField "x-kubernetes-map-type" (JString <$> XMapType schema)
       ∅)))))))))))).

Definition marshalRoundTrip (schema : JSONSchemaProps) : result (gmap string json) :=
  match marshalSchema schema with
  | JObject m => Ok m
  | _ => Err (MarshalError EmptyString)
  end.

Definition reference : Collaborators :=
  {| RefParts := Crd.RefParts;
     ToRESTFriendlyName := Util.ToRESTFriendlyName;
     FlattenEmbedded := Crd.FlattenEmbedded;
     jsonRoundTrip := marshalRoundTrip |}.

Definition refSchema (ref : string) : JSONSchemaProps :=
  {| Ref := Some ref; Type_ := EmptyString; Format := EmptyString; Nullable := false;
     Properties := ∅; Items := None; AdditionalProperties := None;
     AllOf := []; OneOf := []; AnyOf := []; Not := None; XMapType := None |}.

Definition typedSchema (type : string) : JSONSchemaProps :=
  {| Ref := None; Type_ := type; Format := EmptyString; Nullable := false;
     Properties := ∅; Items := None; AdditionalProperties := None;
     AllOf := []; OneOf := []; AnyOf := []; Not := None; XMapType := None |}.

(** An object schema with the given properties and embedded types. *)
Definition structSchema (properties : gmap string JSONSchemaProps)
    (allOf : list JSONSchemaProps) : JSONSchemaProps :=
  {| Ref := None; Type_ := "object"; Format := EmptyString; Nullable := false;
     Properties := properties; Items := None; AdditionalProperties := None;
     AllOf := allOf; OneOf := []; AnyOf := []; Not := None; XMapType := None |}.

(** ** Worked examples *)

Definition apiV1 : Package := {| PkgPath := "example.com/api/v1" |}.
Definition apiDotV1 : Package := {| PkgPath := "example.com/api.v1" |}.
Definition exampleGV : GroupVersion := {| Group := "example.com"; Version := "v1" |}.

Definition localIdent (name : string) : TypeIdent :=
  {| Package_ := Some apiV1; Name := name |}.

(** Two packages whose paths differ only in [/] against [.]: both types
    are named [Foo] and both get the key [com.example.api.v1.Foo]. *)
Definition fooV1 : TypeIdent := {| Package_ := Some apiV1; Name := "Foo" |}.
Definition fooDotV1 : TypeIdent := {| Package_ := Some apiDotV1; Name := "Foo" |}.
Definition collidingSchemata : gmap TypeIdent JSONSchemaProps :=
  {[ fooV1 := typedSchema "string"; fooDotV1 := typedSchema "integer" ]}.

(** [type Foo Bar] next to a root type: the schema of [Foo] is a
    reference to [Bar] that also carries a [type]. *)
Definition aliasWithType : JSONSchemaProps :=
  {| Ref := Some "#/definitions/Bar"; Type_ := "object"; Format := EmptyString;
     Nullable := false; Properties := ∅; Items := None;
     AdditionalProperties := None; AllOf := []; OneOf := []; AnyOf := [];
     Not := None; XMapType := None |}.

Definition aliasSchemata : gmap TypeIdent JSONSchemaProps :=
  {[ localIdent "Widget" :=
       structSchema {[ "foo" := refSchema "#/definitions/Foo" ]} [];
     localIdent "Foo" := aliasWithType;
     localIdent "Bar" := typedSchema "string" ]}.

Definition aliasTypeOrder : list TypeIdent :=
  [localIdent "Widget"; localIdent "Foo"; localIdent "Bar"].

Definition aliasKeyOrder : list string :=
  ["com.example.api.v1.Widget"; "com.example.api.v1.Foo"; "com.example.api.v1.Bar"].

(** A root type with a property whose reference is not in the internal
    format. *)
Definition unparsedSchemata : gmap TypeIdent JSONSchemaProps :=
  {[ localIdent "Widget" := structSchema {[ "spec" := refSchema "WidgetSpec" ]} [] ]}.

(** A root type whose property refers to a type of its own package. *)
Definition widgetSchema : JSONSchemaProps :=
  structSchema {[ "spec" := refSchema "#/definitions/WidgetSpec" ]} [].

(** [A] embeds [B], [B] embeds [C]. *)
Definition chainSchemata : gmap TypeIdent JSONSchemaProps :=
  {[ localIdent "A" :=
       structSchema {[ "a" := typedSchema "string" ]} [refSchema "#/definitions/B"];
     localIdent "B" :=
       structSchema {[ "b" := typedSchema "string" ]} [refSchema "#/definitions/C"];
     localIdent "C" := structSchema {[ "c" := typedSchema "string" ]} [] ]}.



(** A schema with a reference in a property and an [allOf] entry that has
    a reference next to other fields. *)
Definition entryWithSiblings : JSONSchemaProps :=
  {| Ref := Some "#/definitions/C"; Type_ := "object"; Format := EmptyString;
     Nullable := true; Properties := {[ "extra" := typedSchema "integer" ]};
     Items := None; AdditionalProperties := None; AllOf := []; OneOf := [];
     AnyOf := []; Not := None; XMapType := Some "atomic" |}.

Definition mixedSchema : JSONSchemaProps :=
  structSchema {[ "spec" := refSchema "#/definitions/C" ]} [entryWithSiblings].

Definition mixedResolved : JSONSchemaProps :=
  structSchema {[ "spec" := refSchema "#/definitions/C" ]}
    [structSchema {[ "c" := typedSchema "string" ]} []].

(** A definition with v3-only fields and vendor extensions. *)
Definition taggedDefinition : gmap string json :=
  {[ "type" := JString "object";
     "nullable" := JBool true;
     "oneOf" := JArray [JObject {[ "type" := JString "string" ]}];
     "x-kubernetes-map-type" := JString "atomic";
     "properties" := JObject
       {[ "owner" := JObject {[ "$ref" := JString "#/definitions/Owner";
                                "type" := JString "object";
                                "nullable" := JBool true;
                                "x-kubernetes-preserve-unknown-fields" := JBool true ]} ]} ]}.

Definition ownerFragment : gmap string json :=
  {[ "$ref" := JString "#/definitions/Owner";
     "type" := JString "object";
     "nullable" := JBool true;
     "x-kubernetes-preserve-unknown-fields" := JBool true ]}.

(** An alias with an extension, and its target. *)
Definition markedAlias : gmap string json :=
  {[ "$ref" := JString "#/definitions/X"; "x-marker" := JBool true ]}.

Definition targetX : gmap string json :=
  {[ "type" := JString "object";
     "properties" := JObject {[ "a" := JObject {[ "type" := JString "string" ]} ]} ]}.

Definition markedDefinitions : gmap string json :=
  {[ "Alias" := JObject markedAlias; "X" := JObject targetX ]}.

(** A root type with a property of type [Handle], where [Handle] is an
    alias of a type that is not among the schemata. *)
Definition danglingSchemata : gmap TypeIdent JSONSchemaProps :=
  {[ localIdent "Widget" :=
       structSchema {[ "handle" := refSchema "#/definitions/Handle" ]} [];
     localIdent "Handle" := refSchema "#/definitions/Missing" ]}.

Definition danglingAlias : gmap string json :=
  {[ "$ref" := JString "#/definitions/com.example.api.v1.Missing" ]}.

(** The [x-kubernetes-group-version-kind] value of a root type of the
    examples. *)
Definition gvkOf (kind : string) : json :=
  JArray [JObject {[ "group" := JString "example.com";
                     "version" := JString "v1";
                     "kind" := JString kind ]}].

Definition danglingDefinitions : gmap string json :=
  {[ "com.example.api.v1.Widget" := JObject
       {[ "type" := JString "object";
          "properties" := JObject
            {[ "handle" := JObject
                 {[ "$ref" := JString "#/definitions/com.example.api.v1.Handle" ]} ]};
          "x-kubernetes-group-version-kind" := gvkOf "Widget" ]};
     "com.example.api.v1.Handle" := JObject danglingAlias ]}.

(** ** Predicates of the further properties *)

(** The nesting depth of a schema along [properties], [allOf], [items] and
    [additionalProperties]: the number of nested calls the walk of
    [resolveAllOfRefs] makes on it when it follows no reference. *)
Fixpoint schemaDepth (schema : JSONSchemaProps) : nat :=
  S (Nat.max
       (Nat.max
          (map_fold (λ _ v acc, Nat.max (schemaDepth v) acc) 0 (Properties schema))
          (foldr (λ v acc, Nat.max (schemaDepth v) acc) 0 (AllOf schema)))
       (Nat.max
          (from_option
             (λ it, from_option schemaDepth 0 (JSONSchemaPropsOrArray.Schema it))
             0 (Items schema))
          (from_option
             (λ ap, from_option schemaDepth 0 (JSONSchemaPropsOrBool.Schema ap))
             0 (AdditionalProperties schema)))).

(** What the walks over a schema leave alone in one fragment: every field
    but [Ref], the property names, the number of [allOf] entries, the
    array form of [items] and the boolean form of
    [additionalProperties]. *)
Definition sameFrame (t t' : JSONSchemaProps) : Prop :=
  Type_ t' = Type_ t ∧ Format t' = Format t ∧ Nullable t' = Nullable t
  ∧ OneOf t' = OneOf t ∧ AnyOf t' = AnyOf t ∧ Not t' = Not t
  ∧ XMapType t' = XMapType t
  ∧ dom (Properties t') = dom (Properties t)
  ∧ List.length (AllOf t') = List.length (AllOf t)
  ∧ JSONSchemaPropsOrArray.JSONSchemas <$> Items t'
    = JSONSchemaPropsOrArray.JSONSchemas <$> Items t
  ∧ JSONSchemaPropsOrBool.Allows <$> AdditionalProperties t'
    = JSONSchemaPropsOrBool.Allows <$> AdditionalProperties t.

(** A definition the target version can express as it is: no fragment of
    it, at any path through [properties], [items], [additionalProperties]
    and [allOf], has [nullable], [anyOf], [oneOf] or [not], nor [type] or
    [format] next to a [$ref]. *)
Definition v2Clean (schema : gmap string json) : Prop :=
  ∀ path f, fragmentAt path schema = Some f →
    f !! "nullable" = None ∧ f !! "anyOf" = None
    ∧ f !! "oneOf" = None ∧ f !! "not" = None
    ∧ (is_Some (f !! "$ref") → f !! "type" = None ∧ f !! "format" = None).

(** A definition the alias resolver resolves: an object whose [$ref] is a
    string. *)
Definition isAlias (v : json) : Prop :=
  ∃ m r, v = JObject m ∧ m !! "$ref" = Some (JString r).

(** No alias of the map refers to a key that holds an alias. *)
Definition noAliasChains (definitions : gmap string json) : Prop :=
  ∀ k m r t,
    definitions !! k = Some (JObject m) → m !! "$ref" = Some (JString r) →
    definitions !! trimPrefix r refPrefix = Some t → ¬ isAlias t.

(** Every definition of the map is an object the sanitizer leaves as it
    is. *)
Definition allSanitized (definitions : gmap string json) : Prop :=
  ∀ key v, definitions !! key = Some v →
    ∃ m, v = JObject m ∧ sanitizeForOpenAPIV2 m = m.

(** ** Further worked examples *)

(** A struct that embeds itself. *)
Definition loopSchema : JSONSchemaProps :=
  structSchema ∅ [refSchema "#/definitions/Loop"].

Definition loopSchemata : gmap TypeIdent JSONSchemaProps :=
  {[ localIdent "Loop" := loopSchema ]}.

(** A struct whose [allOf] holds an inline entry followed by a
    reference. *)
Definition brokenSchema (ref : string) : JSONSchemaProps :=
  structSchema ∅ [structSchema ∅ []; refSchema ref].

(** A root type that embeds a type that is not among the schemata. *)
Definition brokenSchemata : gmap TypeIdent JSONSchemaProps :=
  {[ localIdent "Widget" := structSchema ∅ [refSchema "#/definitions/Missing"] ]}.

(** [items] in its array form, which the sanitizer does not enter. *)
Definition tupleItems : gmap string json :=
  {[ "type" := JString "array";
     "items" := JArray [JObject {[ "type" := JString "string";
                                   "nullable" := JBool true ]}] ]}.

(** [A] is an alias of [B] and [B] an alias of [C]. *)
Definition chainedAliases : gmap string json :=
  {[ "A" := JObject {[ "$ref" := JString "#/definitions/B"; "x-a" := JBool true ]};
     "B" := JObject {[ "$ref" := JString "#/definitions/C"; "x-b" := JBool true ]};
     "C" := JObject {[ "type" := JString "object" ]} ]}.

(** An alias of itself. *)
Definition selfAlias : gmap string json :=
  {[ "$ref" := JString "#/definitions/Self"; "x-marker" := JBool true ]}.

(** The definitions of [aliasSchemata] as the loop collects them, and as
    the request returns them. *)
Definition aliasCollected : gmap string json :=
  {[ "com.example.api.v1.Widget" := JObject
       {[ "type" := JString "object";
          "properties" := JObject
            {[ "foo" := JObject
                 {[ "$ref" := JString "#/definitions/com.example.api.v1.Foo" ]} ]};
          "x-kubernetes-group-version-kind" := gvkOf "Widget" ]};
     "com.example.api.v1.Foo" := JObject
       {[ "$ref" := JString "#/definitions/com.example.api.v1.Bar" ]};
     "com.example.api.v1.Bar" := JObject {[ "type" := JString "string" ]} ]}.

Definition aliasFinal : gmap string json :=
  {[ "com.example.api.v1.Widget" := JObject
       {[ "type" := JString "object";
          "properties" := JObject
            {[ "foo" := JObject
                 {[ "$ref" := JString "#/definitions/com.example.api.v1.Foo" ]} ]};
          "x-kubernetes-group-version-kind" := gvkOf "Widget" ]};
     "com.example.api.v1.Foo" := JObject {[ "type" := JString "string" ]};
     "com.example.api.v1.Bar" := JObject {[ "type" := JString "string" ]} ]}.

(** ** Structural induction on JSON values *)

Lemma jsize_elem (l : list json) x :
  x ∈ l → jsize x < jsize (JArray l).
Proof.
  simpl. induction 1 as [x l | x y l _ IH]; simpl.
  - lia.
  - lia.
Qed.

Lemma jsize_lookup (m : gmap string json) k x :
  m !! k = Some x → jsize x < jsize (JObject m).
Proof.
  intros Hk. simpl.
  rewrite (map_fold_delete_L _ _ k x m); [lia | | done].
  intros; lia.
Qed.

(** Induction on the size of a value: the hypothesis holds for everything
    nested below [v], at any depth. *)
Lemma json_size_ind (P : json → Prop) :
  (∀ v, (∀ x, jsize x < jsize v → P x) → P v) → ∀ v, P v.
Proof.
  intros Hstep v.
  remember (jsize v) as n eqn:Hn.
  revert v Hn. induction n as [n IH] using lt_wf_ind. intros v ->.
  apply Hstep. intros x Hx. by apply (IH (jsize x)).
Qed.

(** ** The sanitizer *)

Lemma sanitizeFragment_object (m : gmap string json) :
  sanitizeFragment (JObject m) = JObject (sanitizeForOpenAPIV2 m).
Proof. reflexivity. Qed.

Lemma sanitize_lookup (m : gmap string json) k :
  sanitizeForOpenAPIV2 m !! k =
    if droppedKey (bool_decide (is_Some (m !! "$ref"))) k then None
    else sanitizeField sanitizeFragment k <$> m !! k.
Proof.
  unfold sanitizeForOpenAPIV2. rewrite map_lookup_imap.
  destruct (m !! k) as [v|]; simpl; by destruct (droppedKey _ k).
Qed.

Lemma droppedKey_ref b : droppedKey b "$ref" = false.
Proof. by destruct b. Qed.

Lemma sanitizeField_other rec k v :
  k ≠ "properties" → k ≠ "items" → k ≠ "additionalProperties" → k ≠ "allOf" →
  sanitizeField rec k v = v.
Proof.
  intros ? ? ? ?. unfold sanitizeField.
  destruct (decide (k = "properties")); [done|].
  destruct (decide (k = "items" ∨ k = "additionalProperties")) as [[?|?]|_]; [done..|].
  by destruct (decide (k = "allOf")).
Qed.

Lemma sanitize_keeps_ref (m : gmap string json) :
  sanitizeForOpenAPIV2 m !! "$ref" = m !! "$ref".
Proof.
  rewrite sanitize_lookup, droppedKey_ref.
  destruct (m !! "$ref"); simpl; [|done].
  by rewrite sanitizeField_other.
Qed.

Lemma droppedKey_true b k :
  droppedKey b k = true ↔
  (b = true ∧ (k = "type" ∨ k = "format"))
  ∨ k = "nullable" ∨ k = "anyOf" ∨ k = "oneOf" ∨ k = "not".
Proof.
  unfold droppedKey.
  rewrite orb_true_iff, andb_true_iff, !bool_decide_eq_true.
  rewrite !elem_of_cons, !elem_of_nil. tauto.
Qed.

Lemma droppedKey_false b k :
  droppedKey b k = false ↔
  (b = true → k ≠ "type" ∧ k ≠ "format")
  ∧ k ≠ "nullable" ∧ k ≠ "anyOf" ∧ k ≠ "oneOf" ∧ k ≠ "not".
Proof.
  rewrite <- not_true_iff_false, droppedKey_true.
  destruct b; split; intros H.
  - repeat split; try (intros ->; apply H; tauto). 
  - intros [[_ [->| ->]]|[->|[->|[->| ->]]]]; tauto.
  - repeat split; try (intros ->; apply H; tauto); done.
  - intros [[? _]|[->|[->|[->| ->]]]]; [done|tauto..].
Qed.

Lemma rewrite_field_lookup (key : string) (g : json → json) (s : gmap string json) k :
  (match s !! key with Some v => <[key := g v]> s | None => s end) !! k
  = if decide (k = key) then g <$> s !! k else s !! k.
Proof.
  destruct (decide (k = key)) as [->|Hne].
  - destruct (s !! key) as [v|] eqn:E; [by rewrite lookup_insert_eq | by rewrite E].
  - destruct (s !! key); [by rewrite lookup_insert_ne | done].
Qed.

Lemma deletes_lookup (m : gmap string json) k :
  let s1 := if bool_decide (is_Some (m !! "$ref"))
            then delete "format" (delete "type" m) else m in
  delete "not" (delete "oneOf" (delete "anyOf" (delete "nullable" s1))) !! k
  = if droppedKey (bool_decide (is_Some (m !! "$ref"))) k then None else m !! k.
Proof.
  simpl. destruct (droppedKey _ k) eqn:Hk.
  - apply droppedKey_true in Hk.
    destruct Hk as [[-> [->| ->]]|[->|[->|[->| ->]]]]; by simplify_map_eq.
  - apply droppedKey_false in Hk. destruct Hk as (Href & ? & ? & ? & ?).
    rewrite !lookup_delete_ne by done.
    destruct (bool_decide _); [|done].
    destruct Href as [? ?]; [done|]. by rewrite !lookup_delete_ne.
Qed.


Lemma step_properties_lookup (s : gmap string json) k :
  (match s !! "properties" with
   | Some (JObject props) => <["properties" := JObject (sanitizeFragment <$> props)]> s
   | _ => s
   end) !! k
  = if decide (k = "properties")
    then sanitizeField sanitizeFragment "properties" <$> s !! k else s !! k.
Proof.
  rewrite <- rewrite_field_lookup.
  destruct (s !! "properties") as [[]|] eqn:E; try done;
    by rewrite insert_id.
Qed.

Lemma step_items_lookup (s : gmap string json) k :
  (match s !! "items" with
   | Some (JObject items) => <["items" := JObject (sanitizeForOpenAPIV2 items)]> s
   | _ => s
   end) !! k
  = if decide (k = "items")
    then sanitizeField sanitizeFragment "items" <$> s !! k else s !! k.
Proof.
  rewrite <- rewrite_field_lookup.
  destruct (s !! "items") as [[]|] eqn:E; try done;
    by rewrite insert_id.
Qed.

Lemma step_additionalProperties_lookup (s : gmap string json) k :
  (match s !! "additionalProperties" with
   | Some (JObject addProps) =>
       <["additionalProperties" := JObject (sanitizeForOpenAPIV2 addProps)]> s
   | _ => s
   end) !! k
  = if decide (k = "additionalProperties")
    then sanitizeField sanitizeFragment "additionalProperties" <$> s !! k else s !! k.
Proof.
  rewrite <- rewrite_field_lookup.
  destruct (s !! "additionalProperties") as [[]|] eqn:E; try done;
    by rewrite insert_id.
Qed.

Lemma step_allOf_lookup (s : gmap string json) k :
  (match s !! "allOf" with
   | Some (JArray allOf) => <["allOf" := JArray (sanitizeFragment <$> allOf)]> s
   | _ => s
   end) !! k
  = if decide (k = "allOf")
    then sanitizeField sanitizeFragment "allOf" <$> s !! k else s !! k.
Proof.
  rewrite <- rewrite_field_lookup.
  destruct (s !! "allOf") as [[]|] eqn:E; try done;
    by rewrite insert_id.
Qed.

Lemma sanitize_source_order (schema : gmap string json) :
  sanitizeForOpenAPIV2 schema = sanitizeSteps schema.
Proof.
  apply map_eq. intros k. rewrite sanitize_lookup. unfold sanitizeSteps.
  cbv zeta.
  rewrite step_allOf_lookup, step_additionalProperties_lookup,
    step_items_lookup, step_properties_lookup, deletes_lookup.
  destruct (droppedKey _ k); simpl.
  - by repeat case_decide.
  - destruct (schema !! k) as [v|]; simpl; [|by repeat case_decide].
    repeat case_decide; subst; try done.
    by rewrite sanitizeField_other.
Qed.

Lemma sanitizeField_idem k v :
  (∀ x, (jsize x ≤ jsize v)%nat → sanitizeFragment (sanitizeFragment x) = sanitizeFragment x) →
  sanitizeField sanitizeFragment k (sanitizeField sanitizeFragment k v)
  = sanitizeField sanitizeFragment k v.
Proof.
  intros IH. unfold sanitizeField.
  destruct (decide (k = "properties")) as [_|_].
  { destruct v as [| | | | |props]; try done. f_equal.
    rewrite <- map_fmap_compose. apply map_fmap_ext. intros j x Hx. simpl.
    apply IH. apply jsize_lookup in Hx. lia. }
  destruct (decide (k = "items" ∨ k = "additionalProperties")) as [_|_].
  { destruct v as [| | | | |fields]; try done.
    specialize (IH (JObject fields) ltac:(lia)).
    rewrite sanitizeFragment_object in IH |- *. exact IH. }
  destruct (decide (k = "allOf")) as [_|_]; [|done].
  destruct v as [| | | |entries|]; try done. f_equal.
  rewrite <- list_fmap_compose. apply list_fmap_ext. intros i x Hx. simpl.
  apply IH. apply list_elem_of_lookup_2, jsize_elem in Hx. lia.
Qed.

Lemma sanitizeFragment_idem v :
  sanitizeFragment (sanitizeFragment v) = sanitizeFragment v.
Proof.
  induction v as [v IH] using json_size_ind.
  destruct v as [| | | | |m]; try done.
  rewrite !sanitizeFragment_object. f_equal. apply map_eq. intros k.
  rewrite (sanitize_lookup (sanitizeForOpenAPIV2 m)), sanitize_keeps_ref.
  rewrite sanitize_lookup.
  destruct (droppedKey _ k); [done|].
  destruct (m !! k) as [x|] eqn:Hk; simpl; [|done]. f_equal.
  apply sanitizeField_idem. intros y Hy. apply IH.
  apply jsize_lookup in Hk. lia.
Qed.

(** C5. Sanitization is idempotent: applying the Version Sanitizer to an
    already sanitized definition changes nothing. *)
Theorem sanitize_idempotent (D : gmap string json) :
  sanitizeForOpenAPIV2 (sanitizeForOpenAPIV2 D) = sanitizeForOpenAPIV2 D.
Proof.
  pose proof (sanitizeFragment_idem (JObject D)) as H.
  rewrite !sanitizeFragment_object in H. by injection H.
Qed.

Lemma asObject_sanitizeFragment v :
  asObject (sanitizeFragment v) = sanitizeForOpenAPIV2 <$> asObject v.
Proof. by destruct v. Qed.

Lemma jchild_sanitize st (schema : gmap string json) :
  jchild st (sanitizeForOpenAPIV2 schema) = sanitizeForOpenAPIV2 <$> jchild st schema.
Proof.
  destruct st as [name| | |i]; simpl; rewrite sanitize_lookup.
  - replace (droppedKey _ "properties") with false by by destruct (bool_decide _).
    destruct (schema !! "properties") as [[| | | | |props]|]; try done. simpl.
    rewrite lookup_fmap. destruct (props !! name) as [v|]; [|done]. simpl.
    apply asObject_sanitizeFragment.
  - replace (droppedKey _ "items") with false by by destruct (bool_decide _).
    by destruct (schema !! "items") as [[]|].
  - replace (droppedKey _ "additionalProperties") with false
      by by destruct (bool_decide _).
    by destruct (schema !! "additionalProperties") as [[]|].
  - replace (droppedKey _ "allOf") with false by by destruct (bool_decide _).
    destruct (schema !! "allOf") as [[| | | |entries|]|]; try done. simpl.
    rewrite list_lookup_fmap. destruct (entries !! i) as [v|]; [|done]. simpl.
    apply asObject_sanitizeFragment.
Qed.

Lemma fragmentAt_sanitize path (schema : gmap string json) :
  fragmentAt path (sanitizeForOpenAPIV2 schema)
  = sanitizeForOpenAPIV2 <$> fragmentAt path schema.
Proof.
  revert schema. induction path as [|st rest IH]; intros schema; [done|].
  simpl. rewrite jchild_sanitize.
  destruct (jchild st schema) as [c|]; simpl; [apply IH | done].
Qed.

Lemma isVendorKey_kept b k : isVendorKey k = true → droppedKey b k = false.
Proof.
  intros Hk. apply droppedKey_false.
  split; [intros _; split | repeat split]; intros ->; discriminate.
Qed.

Lemma isVendorKey_not_structural rec k v :
  isVendorKey k = true → sanitizeField rec k v = v.
Proof.
  intros Hk. apply sanitizeField_other; intros ->; discriminate.
Qed.

(** C6. In the sanitized definition, the fragment at every path through
    [properties], [items], [additionalProperties] and [allOf] has lost
    [nullable], [anyOf], [oneOf] and [not], has lost [type] and [format]
    when it carries a [$ref], keeps its [$ref], and keeps every vendor
    extension field with the value it had. *)
Theorem sanitize_strips_and_preserves (D : gmap string json) path f :
  fragmentAt path D = Some f →
  ∃ f', fragmentAt path (sanitizeForOpenAPIV2 D) = Some f'
    ∧ f' !! "nullable" = None ∧ f' !! "anyOf" = None
    ∧ f' !! "oneOf" = None ∧ f' !! "not" = None
    ∧ (is_Some (f !! "$ref") → f' !! "type" = None ∧ f' !! "format" = None)
    ∧ f' !! "$ref" = f !! "$ref"
    ∧ (∀ k, isVendorKey k = true → f' !! k = f !! k).
Proof.
  intros Hf. exists (sanitizeForOpenAPIV2 f).
  rewrite fragmentAt_sanitize, Hf. split; [done|].
  repeat split; try (rewrite sanitize_lookup; by destruct (bool_decide _)).
  - rewrite sanitize_lookup, bool_decide_eq_true_2; done.
  - rewrite sanitize_lookup, bool_decide_eq_true_2; done.
  - apply sanitize_keeps_ref.
  - intros k Hk. rewrite sanitize_lookup, isVendorKey_kept by done.
    destruct (f !! k); simpl; [|done]. by rewrite isVendorKey_not_structural.
Qed.

(** ** The alias resolver *)

Lemma mergeExtras_union (targetMap defMap : gmap string json) :
  mergeExtras targetMap defMap = delete "$ref" defMap ∪ targetMap.
Proof.
  unfold mergeExtras.
  apply (map_fold_weak_ind (λ r m, r = delete "$ref" m ∪ targetMap)).
  - by rewrite delete_empty, (left_id_L ∅ (∪)), (right_id_L ∅ (∪)).
  - intros k v m r Hk ->. case_decide as Href.
    + subst k. by rewrite delete_insert_eq.
    + by rewrite delete_insert_ne, insert_union_l.
Qed.

Lemma resolveRefDefinition_lookup_ne (defs : gmap string json) key k :
  k ≠ key → resolveRefDefinition defs key !! k = defs !! k.
Proof.
  intros Hne. unfold resolveRefDefinition.
  repeat case_match; try done. by rewrite lookup_insert_ne.
Qed.

Lemma resolveRefDefinition_None (defs : gmap string json) key k :
  defs !! k = None → resolveRefDefinition defs key !! k = None.
Proof.
  intros Hk. destruct (decide (k = key)) as [->|Hne].
  - unfold resolveRefDefinition. by rewrite Hk.
  - by rewrite resolveRefDefinition_lookup_ne.
Qed.

Lemma resolveRefDefinition_object (defs : gmap string json) key k m :
  defs !! k = Some (JObject m) →
  ∃ m', resolveRefDefinition defs key !! k = Some (JObject m').
Proof.
  intros Hk. destruct (decide (k = key)) as [->|Hne].
  - unfold resolveRefDefinition. rewrite Hk.
    repeat case_match; eauto. rewrite lookup_insert_eq. eauto.
  - rewrite resolveRefDefinition_lookup_ne by done. eauto.
Qed.

Lemma resolveRefDefinition_plain (defs : gmap string json) key k m :
  defs !! k = Some (JObject m) →
  (∀ r, m !! "$ref" ≠ Some (JString r)) →
  resolveRefDefinition defs key !! k = Some (JObject m).
Proof.
  intros Hk Hplain. destruct (decide (k = key)) as [->|Hne].
  - unfold resolveRefDefinition. rewrite Hk.
    destruct (m !! "$ref") as [[| | |r| |]|] eqn:Hr; try done.
    by destruct (Hplain r).
  - by rewrite resolveRefDefinition_lookup_ne.
Qed.

Lemma resolveRefDefinitions_app pre post (defs : gmap string json) :
  resolveRefDefinitions (pre ++ post) defs
  = resolveRefDefinitions post (resolveRefDefinitions pre defs).
Proof. apply foldl_app. Qed.

Lemma resolveRefDefinitions_cons key order (defs : gmap string json) :
  resolveRefDefinitions (key :: order) defs
  = resolveRefDefinitions order (resolveRefDefinition defs key).
Proof. reflexivity. Qed.

Lemma resolveRefDefinitions_notin order (defs : gmap string json) k :
  k ∉ order → resolveRefDefinitions order defs !! k = defs !! k.
Proof.
  revert defs. induction order as [|key order IH]; intros defs Hk; [done|].
  apply not_elem_of_cons in Hk as [Hne Hk].
  rewrite resolveRefDefinitions_cons, IH by done.
  by apply resolveRefDefinition_lookup_ne.
Qed.

Lemma resolveRefDefinitions_None order (defs : gmap string json) k :
  defs !! k = None → resolveRefDefinitions order defs !! k = None.
Proof.
  revert defs. induction order as [|key order IH]; intros defs Hk; [done|].
  rewrite resolveRefDefinitions_cons. apply IH. by apply resolveRefDefinition_None.
Qed.

Lemma resolveRefDefinitions_object order (defs : gmap string json) k m :
  defs !! k = Some (JObject m) →
  ∃ m', resolveRefDefinitions order defs !! k = Some (JObject m').
Proof.
  revert defs m. induction order as [|key order IH]; intros defs m Hk; [by eauto|].
  rewrite resolveRefDefinitions_cons.
  destruct (resolveRefDefinition_object defs key k m Hk) as [m' Hm'].
  by eapply IH.
Qed.

Lemma resolveRefDefinitions_plain order (defs : gmap string json) k m :
  defs !! k = Some (JObject m) →
  (∀ r, m !! "$ref" ≠ Some (JString r)) →
  resolveRefDefinitions order defs !! k = Some (JObject m).
Proof.
  revert defs. induction order as [|key order IH]; intros defs Hk Hplain; [done|].
  rewrite resolveRefDefinitions_cons.
  apply IH; [|done]. by apply resolveRefDefinition_plain.
Qed.

(** C7. An entry that is a [$ref] with sibling fields, whose target key
    holds an object, becomes the target's body with every sibling field of
    the entry but [$ref] written over it: the union is left-biased, so the
    extras win. The body copied is the one the target holds when the entry
    is visited ([pre] lists the keys visited before it); it is the
    target's original body whenever the target is not itself an alias. *)
Theorem alias_takes_target_body (defs : gmap string json) pre key post
    defMap ref targetMap :
  key ∉ pre → key ∉ post →
  defs !! key = Some (JObject defMap) →
  defMap !! "$ref" = Some (JString ref) →
  defs !! trimPrefix ref refPrefix = Some (JObject targetMap) →
  ∃ targetNow,
    resolveRefDefinitions pre defs !! trimPrefix ref refPrefix
      = Some (JObject targetNow)
    ∧ ((∀ r, targetMap !! "$ref" ≠ Some (JString r)) → targetNow = targetMap)
    ∧ resolveRefDefinitions (pre ++ key :: post) defs !! key
      = Some (JObject (delete "$ref" defMap ∪ targetNow)).
Proof.
  intros Hpre Hpost Hkey Href Htarget.
  destruct (resolveRefDefinitions_object pre defs _ _ Htarget) as [targetNow Hnow].
  exists targetNow. split; [done|]. split.
  - intros Hplain.
    rewrite (resolveRefDefinitions_plain pre defs _ _ Htarget Hplain) in Hnow.
    congruence.
  - rewrite resolveRefDefinitions_app, resolveRefDefinitions_cons.
    rewrite resolveRefDefinitions_notin by done.
    unfold resolveRefDefinition.
    rewrite resolveRefDefinitions_notin by done.
    rewrite Hkey, Href, Hnow, lookup_insert_eq.
    by rewrite mergeExtras_union.
Qed.

Lemma dangling_alias_unchanged (defs : gmap string json) order key defMap ref :
  defs !! key = Some (JObject defMap) →
  defMap !! "$ref" = Some (JString ref) →
  defs !! trimPrefix ref refPrefix = None →
  resolveRefDefinitions order defs !! key = Some (JObject defMap).
Proof.
  revert defs. induction order as [|k order IH]; intros defs Hkey Href Htarget; [done|].
  rewrite resolveRefDefinitions_cons.
  apply IH; [|done|by apply resolveRefDefinition_None].
  destruct (decide (key = k)) as [<-|Hne].
  - unfold resolveRefDefinition. by rewrite Hkey, Href, Htarget.
  - by rewrite resolveRefDefinition_lookup_ne.
Qed.

(** ** The reference converter *)

Section ConvertRefs.
Context `{!Collaborators}.

Lemma child_convertRefs st schema contextPkg :
  child st (convertRefs schema contextPkg)
  = (λ t, convertRefs t contextPkg) <$> child st schema.
Proof.
  destruct schema as [ref type format nullable properties items addProps
                        allOf oneOf anyOf not xMapType].
  destruct st as [name|i| |]; simpl.
  - apply lookup_fmap.
  - apply list_lookup_fmap.
  - unfold itemsSchema. simpl. by destruct items as [[[?|] ?]|].
  - unfold additionalPropertiesSchema. simpl.
    by destruct addProps as [[? [?|]]|].
Qed.

Lemma subschema_convertRefs path schema contextPkg :
  subschema path (convertRefs schema contextPkg)
  = (λ t, convertRefs t contextPkg) <$> subschema path schema.
Proof.
  revert schema. induction path as [|st rest IH]; intros schema; [done|].
  simpl. rewrite child_convertRefs.
  destruct (child st schema) as [c|]; simpl; [apply IH | done].
Qed.

Lemma Ref_convertRefs schema contextPkg :
  Ref (convertRefs schema contextPkg) = convertRef contextPkg (Ref schema).
Proof. by destruct schema. Qed.

(** C3, amended. At every path through [properties], [allOf], [items] and
    [additionalProperties], a non-empty reference that parses is rewritten
    to the external form, with the namespace of the owning context when
    the reference has none; a reference that does not parse, and an empty
    one, are left as they are. The converter has no failure outcome. *)
Theorem convertRefs_rewrites_parsed_refs schema contextPkg path t :
  subschema path schema = Some t →
  ∃ t', subschema path (convertRefs schema contextPkg) = Some t'
    ∧ (∀ r typeName pkgPath,
         Ref t = Some r → r ≠ EmptyString → RefParts r = Some (typeName, pkgPath) →
         let namespace :=
           match contextPkg with
           | Some pkg => if decide (pkgPath = EmptyString) then PkgPath pkg else pkgPath
           | None => pkgPath
           end in
         Ref t' = Some ("#/definitions/"
                          ++ ToRESTFriendlyName (namespace ++ "." ++ typeName)))
    ∧ (∀ r, Ref t = Some r → RefParts r = None → Ref t' = Some r)
    ∧ (Ref t = Some EmptyString → Ref t' = Some EmptyString)
    ∧ (Ref t = None → Ref t' = None).
Proof.
  intros Ht. exists (convertRefs t contextPkg).
  rewrite subschema_convertRefs, Ht. split; [done|].
  rewrite Ref_convertRefs. repeat split.
  - intros r typeName pkgPath -> Hr Hparts. simpl.
    apply String.eqb_neq in Hr. by rewrite Hr, Hparts.
  - intros r -> Hparts. simpl. rewrite Hparts. by destruct (negb _).
  - by intros ->.
  - by intros ->.
Qed.

End ConvertRefs.

(** ** The result monad *)

Lemma bind_Ok {A B} (f : A → result B) (r : result A) b :
  r ≫= f = Ok b → ∃ a, r = Ok a ∧ f a = Ok b.
Proof. destruct r as [a| |]; [by exists a | done..]. Qed.

Lemma mapM_Ok {A B} (f : A → result B) l l' :
  mapM f l = Ok l' → Forall2 (λ x y, f x = Ok y) l l'.
Proof.
  revert l'. induction l as [|x l IH]; intros l' Hl; simpl in Hl.
  - injection Hl as <-. constructor.
  - apply bind_Ok in Hl as (y & Hy & Hl).
    apply bind_Ok in Hl as (k & Hk & Hl).
    injection Hl as <-. constructor; auto.
Qed.

Lemma map_mapM_Ok {A B} (f : A → result B) (m : gmap string A) m' :
  map_mapM f m = Ok m' →
  ∀ k, option_Forall2 (λ v v', f v = Ok v') (m !! k) (m' !! k).
Proof.
  unfold map_mapM. revert m'.
  apply (map_fold_weak_ind (λ r m, ∀ m', r = Ok m' →
    ∀ k, option_Forall2 (λ v v', f v = Ok v') (m !! k) (m' !! k))).
  - intros m' [= <-] k. rewrite !lookup_empty. constructor.
  - intros i x m0 r Hi IH m' Hm' k.
    apply bind_Ok in Hm' as (acc & -> & Hm').
    apply bind_Ok in Hm' as (x' & Hx' & Hm').
    injection Hm' as <-.
    destruct (decide (k = i)) as [->|Hne].
    + rewrite !lookup_insert_eq. by constructor.
    + rewrite !lookup_insert_ne by done. by apply IH.
Qed.

Lemma mapM_Ok_2 {A B} (f : A → result B) l l' :
  Forall2 (λ x y, f x = Ok y) l l' → mapM f l = Ok l'.
Proof.
  induction 1 as [|x y l l' Hxy _ IH]; [done|].
  simpl. rewrite Hxy. simpl. rewrite IH. done.
Qed.

Lemma map_mapM_Ok_2 {A B} (f : A → result B) (m : gmap string A) m' :
  (∀ k, option_Forall2 (λ v v', f v = Ok v') (m !! k) (m' !! k)) →
  map_mapM f m = Ok m'.
Proof.
  unfold map_mapM. revert m'.
  induction m as [|i x m Hi Hfirst IH] using map_first_key_ind; intros m' Hrel.
  - rewrite map_fold_empty. f_equal. apply map_eq. intros k.
    specialize (Hrel k). rewrite lookup_empty in Hrel. rewrite lookup_empty.
    by inversion Hrel.
  - rewrite map_fold_insert_first_key by done.
    pose proof (Hrel i) as Hreli. rewrite lookup_insert_eq in Hreli.
    inversion Hreli as [? x' Hx' Heq1 Heq2|]; subst.
    rewrite (IH (delete i m')).
    + simpl. rewrite Hx'. simpl. f_equal. by apply insert_delete_id.
    + intros k. destruct (decide (k = i)) as [->|Hne].
      * rewrite lookup_delete_eq, Hi. constructor.
      * rewrite lookup_delete_ne by done. specialize (Hrel k).
        by rewrite lookup_insert_ne in Hrel.
Qed.

Lemma mapM_is_Ok {A B} (f : A → result B) l :
  Forall (λ a, ∃ b, f a = Ok b) l → ∃ l', mapM f l = Ok l'.
Proof.
  induction 1 as [|a l [b Hb] _ [l' IH]]; [by eexists|].
  exists (b :: l'). simpl. rewrite Hb. simpl. by rewrite IH.
Qed.

Lemma map_mapM_is_Ok {A B} (f : A → result B) (m : gmap string A) :
  map_Forall (λ _ v, ∃ v', f v = Ok v') m → ∃ m', map_mapM f m = Ok m'.
Proof.
  unfold map_mapM.
  induction m as [|i x m Hi Hfirst IH] using map_first_key_ind; intros Hall.
  - rewrite map_fold_empty. by eexists.
  - rewrite map_fold_insert_first_key by done.
    destruct IH as [m' ->].
    { intros k v Hk. apply (Hall k). rewrite lookup_insert_ne; [done|].
      intros <-. congruence. }
    destruct (Hall i x) as [x' Hx']; [apply lookup_insert_eq|].
    simpl. rewrite Hx'. by eexists.
Qed.

(** ** The allOf reference resolver *)

Section ResolveAllOfRefs.
Context `{!Collaborators}.
Implicit Types (Schemata : gmap TypeIdent JSONSchemaProps)
               (pkgByPath : gmap string Package).

Lemma resolveAllOfEntry_Ok rec contextPkg Schemata pkgByPath entry entry' :
  resolveAllOfEntry rec contextPkg Schemata pkgByPath entry = Ok entry' →
  if hasRef entry then
    ∃ ref typeName pkgPath pkg target,
      Ref entry = Some ref
      ∧ RefParts ref = Some (typeName, pkgPath)
      ∧ (if decide (pkgPath = EmptyString) then contextPkg
         else pkgByPath !! pkgPath) = Some pkg
      ∧ Schemata !! {| Package_ := Some pkg; Name := typeName |} = Some target
      ∧ rec target (Some pkg) = Ok entry'
  else rec entry contextPkg = Ok entry'.
Proof.
  unfold resolveAllOfEntry, hasRef.
  destruct (Ref entry) as [ref|] eqn:Hr; simpl; [|done].
  destruct (negb (String.eqb ref EmptyString)); [|done].
  destruct (RefParts ref) as [[typeName pkgPath]|] eqn:Hparts; [|done].
  destruct (if decide (pkgPath = EmptyString) then _ else _) as [pkg|] eqn:Hpkg; [|done].
  destruct (Schemata !! _) as [target|] eqn:Htarget; [|done].
  intros Hrec. by exists ref, typeName, pkgPath, pkg, target.
Qed.

Lemma resolveAllOfRefs_Ok fuel schema contextPkg Schemata pkgByPath schema' :
  resolveAllOfRefs (S fuel) schema contextPkg Schemata pkgByPath = Ok schema' →
  let rec := λ s pkg, resolveAllOfRefs fuel s pkg Schemata pkgByPath in
  Ref schema' = Ref schema
  ∧ Forall2 (λ e e', resolveAllOfEntry rec contextPkg Schemata pkgByPath e = Ok e')
      (AllOf schema) (AllOf schema')
  ∧ (∀ k, option_Forall2 (λ v v', rec v contextPkg = Ok v')
            (Properties schema !! k) (Properties schema' !! k))
  ∧ option_Forall2 (λ v v', rec v contextPkg = Ok v')
      (itemsSchema schema) (itemsSchema schema')
  ∧ option_Forall2 (λ v v', rec v contextPkg = Ok v')
      (additionalPropertiesSchema schema) (additionalPropertiesSchema schema').
Proof.
  intros Hres rec. simpl in Hres.
  apply bind_Ok in Hres as (allOf & HallOf & Hres).
  apply bind_Ok in Hres as (properties & Hprops & Hres).
  apply bind_Ok in Hres as (items & Hitems & Hres).
  apply bind_Ok in Hres as (addProps & HaddProps & Hres).
  injection Hres as <-. simpl.
  split; [done|]. split; [by apply mapM_Ok|]. split; [by apply map_mapM_Ok|].
  unfold itemsSchema, additionalPropertiesSchema. simpl. split.
  - destruct (Items schema) as [[[s|] arr]|]; simpl in *.
    + apply bind_Ok in Hitems as (s' & Hs' & [= <-]). by constructor.
    + injection Hitems as <-. constructor.
    + injection Hitems as <-. constructor.
  - destruct (AdditionalProperties schema) as [[allows [s|]]|]; simpl in *.
    + apply bind_Ok in HaddProps as (s' & Hs' & [= <-]). by constructor.
    + injection HaddProps as <-. constructor.
    + injection HaddProps as <-. constructor.
Qed.

(** More fuel never changes a result: a schema obtained at some budget is
    the schema the unbounded recursion returns. *)
Lemma resolveAllOfEntry_mono
    (rec rec' : JSONSchemaProps → option Package → result JSONSchemaProps)
    contextPkg Schemata pkgByPath entry entry' :
  (∀ s pkg s', rec s pkg = Ok s' → rec' s pkg = Ok s') →
  resolveAllOfEntry rec contextPkg Schemata pkgByPath entry = Ok entry' →
  resolveAllOfEntry rec' contextPkg Schemata pkgByPath entry = Ok entry'.
Proof.
  intros Hrec. unfold resolveAllOfEntry.
  destruct (hasRef entry); [|apply Hrec].
  destruct (RefParts _) as [[typeName pkgPath]|]; [|done].
  destruct (if decide (pkgPath = EmptyString) then _ else _) as [pkg|]; [|done].
  destruct (Schemata !! _) as [target|]; [apply Hrec | done].
Qed.

Lemma resolveAllOfRefs_more_fuel fuel schema contextPkg Schemata pkgByPath schema' :
  resolveAllOfRefs fuel schema contextPkg Schemata pkgByPath = Ok schema' →
  resolveAllOfRefs (S fuel) schema contextPkg Schemata pkgByPath = Ok schema'.
Proof.
  revert schema contextPkg schema'.
  induction fuel as [|fuel IH]; intros schema contextPkg schema' Hres; [done|].
  pose proof (resolveAllOfRefs_Ok _ _ _ _ _ _ Hres) as (_ & HallOf & Hp & _).
  simpl in HallOf, Hp.
  remember (S fuel) as n eqn:Hn. rewrite Hn in Hres. simpl in Hres |- *.
  apply bind_Ok in Hres as (allOf & _ & Hres).
  apply bind_Ok in Hres as (properties & _ & Hres).
  apply bind_Ok in Hres as (items & Hitems & Hres).
  apply bind_Ok in Hres as (addProps & HaddProps & Hres).
  injection Hres as <-. simpl in HallOf, Hp. subst n.
  rewrite (mapM_Ok_2 _ _ allOf).
  2: { eapply Forall2_impl; [exact HallOf|]. intros e e'.
       apply resolveAllOfEntry_mono. intros s pkg s'. apply IH. }
  simpl. rewrite (map_mapM_Ok_2 _ _ properties).
  2: { intros k. destruct (Hp k) as [v v' Hv|]; constructor. by apply IH. }
  simpl.
  destruct (Items schema) as [[[s|] arr]|]; simpl in *;
    [ apply bind_Ok in Hitems as (s' & Hs' & [= <-]);
      rewrite (IH _ _ _ Hs'); simpl
    | injection Hitems as <- .. ];
    (destruct (AdditionalProperties schema) as [[allows [t|]]|]; simpl in *;
     [ apply bind_Ok in HaddProps as (t' & Ht' & [= <-]);
       by rewrite (IH _ _ _ Ht')
     | by injection HaddProps as <- .. ]).
Qed.

Lemma resolveAllOfRefs_fuel_le fuel fuel' schema contextPkg Schemata pkgByPath schema' :
  (fuel ≤ fuel')%nat →
  resolveAllOfRefs fuel schema contextPkg Schemata pkgByPath = Ok schema' →
  resolveAllOfRefs fuel' schema contextPkg Schemata pkgByPath = Ok schema'.
Proof.
  induction 1 as [|fuel' _ IH]; [done|].
  intros Hres. by apply resolveAllOfRefs_more_fuel, IH.
Qed.

Lemma resolveAllOfRefs_fuel fuel schema contextPkg Schemata pkgByPath schema' :
  resolveAllOfRefs fuel schema contextPkg Schemata pkgByPath = Ok schema' →
  ∃ n, fuel = S n.
Proof. destruct fuel; [done | eauto]. Qed.

Lemma resolveAllOfRefs_Ref fuel schema contextPkg Schemata pkgByPath schema' :
  resolveAllOfRefs fuel schema contextPkg Schemata pkgByPath = Ok schema' →
  Ref schema' = Ref schema.
Proof.
  intros Hres. destruct (resolveAllOfRefs_fuel _ _ _ _ _ _ Hres) as [n ->].
  by apply resolveAllOfRefs_Ok in Hres as [? _].
Qed.


Lemma resolveAllOfRefs_child fuel schema contextPkg Schemata pkgByPath schema' st :
  resolveAllOfRefs (S fuel) schema contextPkg Schemata pkgByPath = Ok schema' →
  match st with InAllOf _ => False | _ => True end →
  option_Forall2
    (λ c c', resolveAllOfRefs fuel c contextPkg Schemata pkgByPath = Ok c')
    (child st schema) (child st schema').
Proof.
  intros Hres Hst. apply resolveAllOfRefs_Ok in Hres as (_ & _ & Hp & Hi & Ha).
  destruct st; simpl; [apply Hp | done | apply Hi | apply Ha].
Qed.

Lemma resolveAllOfRefs_outer_refs
    fuel schema contextPkg Schemata pkgByPath schema' path :
  resolveAllOfRefs fuel schema contextPkg Schemata pkgByPath = Ok schema' →
  outsideAllOf path →
  Ref <$> subschema path schema' = Ref <$> subschema path schema.
Proof.
  revert fuel schema schema'.
  induction path as [|st rest IH]; intros fuel schema schema' Hres Hpath.
  - simpl. f_equal. by eapply resolveAllOfRefs_Ref.
  - apply Forall_cons in Hpath as [Hst Hrest].
    destruct (resolveAllOfRefs_fuel _ _ _ _ _ _ Hres) as [n ->].
    simpl. destruct (resolveAllOfRefs_child _ _ _ _ _ _ st Hres Hst) as [c c' Hc|].
    + simpl. by eapply IH.
    + done.
Qed.

Lemma resolveAllOfRefs_entries fuel schema contextPkg Schemata pkgByPath schema' :
  resolveAllOfRefs (S fuel) schema contextPkg Schemata pkgByPath = Ok schema' →
  Forall2 (λ entry entry',
      if hasRef entry then
        ∃ ref typeName pkgPath pkg target,
          Ref entry = Some ref
          ∧ RefParts ref = Some (typeName, pkgPath)
          ∧ (if decide (pkgPath = EmptyString) then contextPkg
             else pkgByPath !! pkgPath) = Some pkg
          ∧ Schemata !! {| Package_ := Some pkg; Name := typeName |} = Some target
          ∧ resolveAllOfRefs fuel target (Some pkg) Schemata pkgByPath = Ok entry'
      else resolveAllOfRefs fuel entry contextPkg Schemata pkgByPath = Ok entry')
    (AllOf schema) (AllOf schema').
Proof.
  intros Hres. apply resolveAllOfRefs_Ok in Hres as (_ & HallOf & _).
  eapply Forall2_impl; [exact HallOf|].
  intros entry entry' Hentry. by apply resolveAllOfEntry_Ok in Hentry.
Qed.

Lemma resolveAllOfRefs_properties_dom
    fuel schema contextPkg Schemata pkgByPath schema' :
  resolveAllOfRefs fuel schema contextPkg Schemata pkgByPath = Ok schema' →
  dom (Properties schema') = dom (Properties schema).
Proof.
  intros Hres. destruct (resolveAllOfRefs_fuel _ _ _ _ _ _ Hres) as [n ->].
  apply resolveAllOfRefs_Ok in Hres as (_ & _ & Hp & _).
  apply set_eq. intros k. rewrite !elem_of_dom.
  destruct (Hp k) as [v v' _|]; split; intros [? ?]; eauto; done.
Qed.

Lemma refersTo_inj Schemata pkgByPath contextPkg entry target pkg target' pkg' :
  refersTo Schemata pkgByPath contextPkg entry target pkg →
  refersTo Schemata pkgByPath contextPkg entry target' pkg' →
  target' = target ∧ pkg' = pkg.
Proof.
  intros (ref & typeName & pkgPath & Hr & Hparts & Hpkg & Hlook)
         (ref' & typeName' & pkgPath' & Hr' & Hparts' & Hpkg' & Hlook').
  rewrite Hr in Hr'. injection Hr' as <-.
  rewrite Hparts in Hparts'. injection Hparts' as <- <-.
  rewrite Hpkg in Hpkg'. injection Hpkg' as <-.
  rewrite Hlook in Hlook'. by injection Hlook' as <-.
Qed.

Lemma resolveAllOfEntry_refersTo rec contextPkg Schemata pkgByPath entry target pkg :
  hasRef entry = true →
  refersTo Schemata pkgByPath contextPkg entry target pkg →
  resolveAllOfEntry rec contextPkg Schemata pkgByPath entry = rec target (Some pkg).
Proof.
  intros Hhas (ref & typeName & pkgPath & Hr & Hparts & Hpkg & Hlook).
  unfold resolveAllOfEntry. rewrite Hhas, Hr. simpl. by rewrite Hparts, Hpkg, Hlook.
Qed.

Lemma resolveAllOfRefs_entries_refersTo
    fuel schema contextPkg Schemata pkgByPath schema' :
  resolveAllOfRefs (S fuel) schema contextPkg Schemata pkgByPath = Ok schema' →
  Forall2 (λ entry entry',
      if hasRef entry then
        ∃ target pkg,
          refersTo Schemata pkgByPath contextPkg entry target pkg
          ∧ resolveAllOfRefs fuel target (Some pkg) Schemata pkgByPath = Ok entry'
      else resolveAllOfRefs fuel entry contextPkg Schemata pkgByPath = Ok entry')
    (AllOf schema) (AllOf schema').
Proof.
  intros Hres. apply resolveAllOfRefs_entries in Hres.
  eapply Forall2_impl; [exact Hres|].
  intros entry entry'. simpl. destruct (hasRef entry); [|tauto].
  intros (ref & typeName & pkgPath & pkg & target & Hr & Hparts & Hpkg & Hlook & Ht).
  exists target, pkg. split; [|done]. by exists ref, typeName, pkgPath.
Qed.

(** A call whose references can all be followed and whose nested calls
    are fewer than the budget returns a schema. *)
Lemma resolveAllOfRefs_total fuel schema contextPkg Schemata pkgByPath :
  resolvesWithin Schemata pkgByPath fuel (schema, contextPkg) →
  ∃ schema', resolveAllOfRefs fuel schema contextPkg Schemata pkgByPath = Ok schema'.
Proof.
  revert schema contextPkg.
  induction fuel as [|fuel IH]; intros schema contextPkg Hpre; [done|].
  destruct Hpre as [Hrefs Hcalls].
  assert (∀ st t, child st schema = Some t →
            (∀ i, st = InAllOf i → hasRef t = false) →
            ∃ t', resolveAllOfRefs fuel t contextPkg Schemata pkgByPath = Ok t')
    as Hchild.
  { intros st t Ht Hst. apply IH, Hcalls. by apply (calls_in_place _ _ _ _ st). }
  simpl.
  destruct (mapM_is_Ok
              (resolveAllOfEntry
                 (λ s pkg, resolveAllOfRefs fuel s pkg Schemata pkgByPath)
                 contextPkg Schemata pkgByPath) (AllOf schema)) as [allOf ->].
  { apply Forall_lookup. intros i entry Hentry.
    destruct (hasRef entry) eqn:Hhas.
    - destruct (Hrefs i entry Hentry Hhas) as (target & pkg & Hto).
      rewrite (resolveAllOfEntry_refersTo _ _ _ _ _ _ _ Hhas Hto).
      apply IH, Hcalls. by econstructor.
    - unfold resolveAllOfEntry. rewrite Hhas.
      apply (Hchild (InAllOf i)); [done|]. by intros ? [= <-]. }
  simpl.
  destruct (map_mapM_is_Ok
              (λ v, resolveAllOfRefs fuel v contextPkg Schemata pkgByPath)
              (Properties schema)) as [properties ->].
  { intros k v Hk. by apply (Hchild (InProperty k)). }
  simpl.
  pose proof (Hchild InItems) as Hitems.
  pose proof (Hchild InAdditionalProperties) as HaddProps.
  unfold child, itemsSchema, additionalPropertiesSchema in Hitems, HaddProps.
  destruct (Items schema) as [[[s|] arr]|]; simpl in *;
    [destruct (Hitems s eq_refl) as [s' ->]; [done|]; simpl|..];
    (destruct (AdditionalProperties schema) as [[allows [t|]]|]; simpl in *;
     [destruct (HaddProps t eq_refl) as [t' ->]; [done|]; simpl|..]);
    by eexists.
Qed.

(** Conversely, a call that returns a schema could follow every
    reference, within its budget. *)
Lemma resolveAllOfRefs_Ok_resolvesWithin
    fuel schema contextPkg Schemata pkgByPath schema' :
  resolveAllOfRefs fuel schema contextPkg Schemata pkgByPath = Ok schema' →
  resolvesWithin Schemata pkgByPath fuel (schema, contextPkg).
Proof.
  revert schema contextPkg schema'.
  induction fuel as [|fuel IH]; intros schema contextPkg schema' Hres; [done|].
  pose proof (resolveAllOfRefs_entries_refersTo _ _ _ _ _ _ Hres) as Hentries.
  split.
  - intros i entry Hentry Hhas. simpl in Hentry.
    destruct (Forall2_lookup_l _ _ _ _ _ Hentries Hentry) as (entry' & _ & Hrel).
    rewrite Hhas in Hrel. destruct Hrel as (target & pkg & Hto & _). eauto.
  - intros y Hcall.
    inversion Hcall as [? ? i entry target pkg Hentry Hhas Hto
                       |? ? st t Ht Hst]; subst.
    + destruct (Forall2_lookup_l _ _ _ _ _ Hentries Hentry) as (entry' & _ & Hrel).
      rewrite Hhas in Hrel. destruct Hrel as (target' & pkg' & Hto' & Htarget).
      destruct (refersTo_inj _ _ _ _ _ _ _ _ Hto Hto') as [-> ->]. by eapply IH.
    + assert ((∃ i, st = InAllOf i)
              ∨ match st with InAllOf _ => False | _ => True end) as [[i ->]|Hout]
        by (destruct st; eauto).
      * simpl in Ht.
        destruct (Forall2_lookup_l _ _ _ _ _ Hentries Ht) as (entry' & _ & Hrel).
        rewrite (Hst i eq_refl) in Hrel. by eapply IH.
      * pose proof (resolveAllOfRefs_child _ _ _ _ _ _ st Hres Hout) as Hchild.
        rewrite Ht in Hchild. inversion Hchild as [? t' Ht'|]; subst.
        by eapply IH.
Qed.




(** The precondition, one level at a time. *)
Lemma resolvesWithin_intro n schema contextPkg Schemata pkgByPath :
  Forall (λ entry,
            if hasRef entry then
              ∃ target pkg,
                refersTo Schemata pkgByPath contextPkg entry target pkg
                ∧ resolvesWithin Schemata pkgByPath n (target, Some pkg)
            else resolvesWithin Schemata pkgByPath n (entry, contextPkg))
         (AllOf schema) →
  map_Forall (λ _ v, resolvesWithin Schemata pkgByPath n (v, contextPkg))
             (Properties schema) →
  (∀ t, itemsSchema schema = Some t →
        resolvesWithin Schemata pkgByPath n (t, contextPkg)) →
  (∀ t, additionalPropertiesSchema schema = Some t →
        resolvesWithin Schemata pkgByPath n (t, contextPkg)) →
  resolvesWithin Schemata pkgByPath (S n) (schema, contextPkg).
Proof.
  intros HallOf Hprops Hitems HaddProps. split.
  - intros i entry Hentry Hhas. simpl in Hentry.
    pose proof (proj1 (Forall_lookup _ _) HallOf i entry Hentry) as Hrel.
    simpl in Hrel. rewrite Hhas in Hrel.
    destruct Hrel as (target & pkg & Hto & _). eauto.
  - intros y Hcall.
    inversion Hcall as [? ? i entry target pkg Hentry Hhas Hto
                       |? ? st t Ht Hst]; subst.
    + pose proof (proj1 (Forall_lookup _ _) HallOf i entry Hentry) as Hrel.
      simpl in Hrel. rewrite Hhas in Hrel.
      destruct Hrel as (target' & pkg' & Hto' & Htarget).
      by destruct (refersTo_inj _ _ _ _ _ _ _ _ Hto Hto') as [-> ->].
    + destruct st as [k|i| |]; simpl in Ht.
      * by apply (Hprops k).
      * pose proof (proj1 (Forall_lookup _ _) HallOf i t Ht) as Hrel.
        simpl in Hrel. by rewrite (Hst i eq_refl) in Hrel.
      * by apply Hitems.
      * by apply HaddProps.
Qed.

Lemma resolvesWithin_leaf n schema contextPkg Schemata pkgByPath :
  AllOf schema = [] → Properties schema = ∅ →
  itemsSchema schema = None → additionalPropertiesSchema schema = None →
  resolvesWithin Schemata pkgByPath (S n) (schema, contextPkg).
Proof.
  intros HallOf Hprops Hitems HaddProps. apply resolvesWithin_intro.
  - rewrite HallOf. constructor.
  - rewrite Hprops. apply map_Forall_empty.
  - by rewrite Hitems.
  - by rewrite HaddProps.
Qed.

(** C8. References outside [allOf] are left as they are: along every
    path through [properties], [items] and [additionalProperties] the
    resolved schema has a fragment exactly where the input has one, with
    the same [Ref]. *)
Theorem resolveAllOfRefs_keeps_outer_refs
    fuel schema contextPkg Schemata pkgByPath schema' path :
  resolveAllOfRefs fuel schema contextPkg Schemata pkgByPath = Ok schema' →
  outsideAllOf path →
  Ref <$> subschema path schema' = Ref <$> subschema path schema.
Proof. apply resolveAllOfRefs_outer_refs. Qed.

(** C10. When every reference met can be followed and the calls nest
    within the budget, which is exactly when the call returns a schema
    ([resolveAllOfRefs_Ok_resolvesWithin]), the call returns a schema in
    which an [allOf] entry with a non-empty reference is replaced by the
    resolved copy of the schema the reference names, whatever other
    fields the entry has: the new entry is computed from that schema
    alone. Every other entry is resolved in place. *)
Theorem allOf_entry_replaced fuel schema contextPkg Schemata pkgByPath :
  resolvesWithin Schemata pkgByPath (S fuel) (schema, contextPkg) →
  ∃ schema',
    resolveAllOfRefs (S fuel) schema contextPkg Schemata pkgByPath = Ok schema'
    ∧ Forall2 (λ entry entry',
          if hasRef entry then
            ∃ target pkg,
              refersTo Schemata pkgByPath contextPkg entry target pkg
              ∧ resolveAllOfRefs fuel target (Some pkg) Schemata pkgByPath = Ok entry'
          else resolveAllOfRefs fuel entry contextPkg Schemata pkgByPath = Ok entry')
        (AllOf schema) (AllOf schema').
Proof.
  intros Hpre. destruct (resolveAllOfRefs_total _ _ _ _ _ Hpre) as [schema' Hres].
  exists schema'. split; [done|]. by apply resolveAllOfRefs_entries_refersTo.
Qed.


End ResolveAllOfRefs.

(** ** The assembly of the definitions *)

Lemma sanitize_insert_vendor k v (m : gmap string json) :
  isVendorKey k = true →
  sanitizeForOpenAPIV2 (<[k := v]> m) = <[k := v]> (sanitizeForOpenAPIV2 m).
Proof.
  intros Hk. apply map_eq. intros j. rewrite sanitize_lookup.
  assert (k ≠ "$ref") as Hne by (intros ->; discriminate).
  rewrite lookup_insert_ne by done.
  destruct (decide (j = k)) as [->|Hj].
  - rewrite !lookup_insert_eq, isVendorKey_kept by done. simpl.
    by rewrite isVendorKey_not_structural.
  - rewrite !lookup_insert_ne by done. by rewrite sanitize_lookup.
Qed.

Section Assembly.
Context `{!Collaborators}.
Implicit Types (Schemata : gmap TypeIdent JSONSchemaProps).

Lemma sanitize_annotateGVK root gv crdTypeSet ident (schemaMap : gmap string json) :
  sanitizeForOpenAPIV2 (annotateGVK root gv crdTypeSet ident schemaMap)
  = annotateGVK root gv crdTypeSet ident (sanitizeForOpenAPIV2 schemaMap).
Proof.
  unfold annotateGVK. destruct (_ && _); [|done].
  by apply sanitize_insert_vendor.
Qed.

Lemma collectDefinitions_sanitized fuel root gv crdTypeSet Schemata order
    (raw : gmap string json) :
  collectDefinitions fuel root gv crdTypeSet Schemata order (sanitizeFragment <$> raw)
  = collectUnsanitized fuel root gv crdTypeSet Schemata order raw
      ≫= λ unsanitized : gmap string json, Ok (sanitizeFragment <$> unsanitized).
Proof.
  revert raw. induction order as [|ident rest IH]; intros raw; [done|].
  simpl. destruct (Schemata !! ident) as [s|]; [|apply IH].
  unfold schemaDefinition.
  destruct (renderSchema fuel Schemata ident s) as [schemaMap| |]; simpl; [|done..].
  rewrite <- IH. f_equal.
  by rewrite fmap_insert, sanitizeFragment_object, sanitize_annotateGVK.
Qed.

Lemma collectDefinitions_app fuel root gv crdTypeSet Schemata pre post
    (definitions : gmap string json) :
  collectDefinitions fuel root gv crdTypeSet Schemata (pre ++ post)%list definitions
  = collectDefinitions fuel root gv crdTypeSet Schemata pre definitions
      ≫= collectDefinitions fuel root gv crdTypeSet Schemata post.
Proof.
  revert definitions. induction pre as [|ident pre IH]; intros definitions; [done|].
  simpl. destruct (Schemata !! ident) as [s|]; [|apply IH].
  destruct (schemaDefinition _ _ _ _ _ _ _) as [[key schemaMap]| |]; simpl;
    [apply IH | done..].
Qed.

Lemma schemaDefinition_Ok fuel root gv crdTypeSet Schemata ident s schemaMap :
  renderSchema fuel Schemata ident s = Ok schemaMap →
  schemaDefinition fuel root gv crdTypeSet Schemata ident s
  = Ok (definitionKey ident,
        annotateGVK root gv crdTypeSet ident (sanitizeForOpenAPIV2 schemaMap)).
Proof. intros Hr. unfold schemaDefinition. by rewrite Hr. Qed.

Lemma collectDefinitions_succeeds fuel root gv crdTypeSet Schemata order
    (definitions : gmap string json) :
  (∀ j sj, j ∈ order → Schemata !! j = Some sj →
           ∃ m, renderSchema fuel Schemata j sj = Ok m) →
  ∃ defs, collectDefinitions fuel root gv crdTypeSet Schemata order definitions
          = Ok defs.
Proof.
  revert definitions. induction order as [|ident rest IH]; intros definitions Hall.
  - by eexists.
  - simpl. destruct (Schemata !! ident) as [s|] eqn:Hs.
    + destruct (Hall ident s) as [m Hm]; [left | done |].
      rewrite (schemaDefinition_Ok _ root gv crdTypeSet _ _ _ _ Hm). simpl.
      apply IH. intros j sj Hj. apply Hall. by right.
    + apply IH. intros j sj Hj. apply Hall. by right.
Qed.

Lemma collectDefinitions_other_keys fuel root gv crdTypeSet Schemata order
    (definitions defs : gmap string json) key :
  collectDefinitions fuel root gv crdTypeSet Schemata order definitions = Ok defs →
  (∀ j, j ∈ order → j ∈ dom Schemata → definitionKey j ≠ key) →
  defs !! key = definitions !! key.
Proof.
  revert definitions. induction order as [|ident rest IH]; intros definitions Hc Hkeys.
  - by injection Hc as <-.
  - simpl in Hc. destruct (Schemata !! ident) as [s|] eqn:Hs.
    + unfold schemaDefinition in Hc.
      destruct (renderSchema fuel Schemata ident s) as [m| |]; simpl in Hc; [|done..].
      rewrite (IH _ Hc); [|intros j Hj; apply Hkeys; by right].
      apply lookup_insert_ne, Hkeys; [left|]. by apply elem_of_dom.
    + apply (IH _ Hc). intros j Hj. apply Hkeys. by right.
Qed.

(** C1, amended. Assembly has no failure for a key collision. When the
    processing of every type succeeds, the loop succeeds, and the key of a
    type holds the definition of the last type visited that maps to it:
    of two distinct identifiers with one key, the one visited later
    overwrites the other. *)
Theorem colliding_definition_overwritten fuel root gv crdTypeSet Schemata
    pre ident post s aliasOrder :
  (∀ j sj, j ∈ (pre ++ ident :: post)%list → Schemata !! j = Some sj →
           ∃ m, renderSchema fuel Schemata j sj = Ok m) →
  Schemata !! ident = Some s →
  (∀ j, j ∈ post → j ∈ dom Schemata → definitionKey j ≠ definitionKey ident) →
  ∃ defs schemaMap,
    collectDefinitions fuel root gv crdTypeSet Schemata (pre ++ ident :: post)%list ∅
      = Ok defs
    ∧ schemaDefinition fuel root gv crdTypeSet Schemata ident s
      = Ok (definitionKey ident, schemaMap)
    ∧ defs !! definitionKey ident = Some (JObject schemaMap)
    ∧ buildDefinitions fuel root gv crdTypeSet Schemata (pre ++ ident :: post)%list
        aliasOrder = Ok (resolveRefDefinitions aliasOrder defs).
Proof.
  intros Hall Hs Hpost.
  destruct (collectDefinitions_succeeds fuel root gv crdTypeSet Schemata
              (pre ++ ident :: post)%list ∅ Hall) as [defs Hdefs].
  destruct (Hall ident s) as [m Hm]; [set_solver | done |].
  exists defs, (annotateGVK root gv crdTypeSet ident (sanitizeForOpenAPIV2 m)).
  split; [done|]. split; [by apply schemaDefinition_Ok|]. split.
  - rewrite collectDefinitions_app in Hdefs.
    apply bind_Ok in Hdefs as (mid & _ & Hdefs).
    simpl in Hdefs. rewrite Hs in Hdefs.
    rewrite (schemaDefinition_Ok _ root gv crdTypeSet _ _ _ _ Hm) in Hdefs.
    simpl in Hdefs.
    rewrite (collectDefinitions_other_keys _ _ _ _ _ _ _ _ _ Hdefs Hpost).
    apply lookup_insert_eq.
  - unfold buildDefinitions. by rewrite Hdefs.
Qed.

(** C2, amended. The sanitizer runs on each definition before it enters
    the map and the alias resolver runs last: the final definitions are
    the alias resolver applied to the sanitized definitions. *)
Theorem sanitizer_runs_before_alias_resolver fuel root gv crdTypeSet Schemata
    order aliasOrder :
  buildDefinitions fuel root gv crdTypeSet Schemata order aliasOrder
  = collectUnsanitized fuel root gv crdTypeSet Schemata order ∅
      ≫= λ unsanitized : gmap string json,
           Ok (resolveRefDefinitions aliasOrder (sanitizeFragment <$> unsanitized)).
Proof.
  unfold buildDefinitions.
  rewrite <- (fmap_empty (M := gmap string) sanitizeFragment).
  rewrite collectDefinitions_sanitized.
  by destruct (collectUnsanitized _ _ _ _ _ _ _).
Qed.

(** C9. An alias whose target key is absent from the definitions map is
    left as it is, reference and extras, whatever the visiting order; the
    alias resolver has no failure outcome, so a request whose definitions
    were collected returns them resolved. *)
Theorem dangling_alias_tolerated aliasOrder (defs : gmap string json)
    key defMap ref :
  defs !! key = Some (JObject defMap) →
  defMap !! "$ref" = Some (JString ref) →
  defs !! trimPrefix ref refPrefix = None →
  resolveRefDefinitions aliasOrder defs !! key = Some (JObject defMap)
  ∧ ∀ fuel root gv crdTypeSet Schemata order,
      collectDefinitions fuel root gv crdTypeSet Schemata order ∅ = Ok defs →
      buildDefinitions fuel root gv crdTypeSet Schemata order aliasOrder
      = Ok (resolveRefDefinitions aliasOrder defs).
Proof.
  intros Hkey Href Htarget. split.
  - by eapply dangling_alias_unchanged.
  - intros fuel root gv crdTypeSet Schemata order Hdefs.
    unfold buildDefinitions. by rewrite Hdefs.
Qed.

End Assembly.

(** ** Further properties of the allOf reference resolver *)

Lemma schemaDepth_child st schema c :
  child st schema = Some c → (schemaDepth c < schemaDepth schema)%nat.
Proof.
  destruct schema as [ref type format nullable properties items addProps
                        allOf oneOf anyOf not xMapType].
  destruct st as [name|i| |]; simpl; intros Hc.
  - rewrite (map_fold_delete_L _ _ name c properties); [lia| |done].
    intros; lia.
  - apply list_elem_of_lookup_2 in Hc.
    assert (schemaDepth c ≤ foldr (λ v acc, Nat.max (schemaDepth v) acc) 0 allOf)%nat;
      [|lia].
    induction Hc; simpl; lia.
  - unfold itemsSchema in Hc. simpl in Hc.
    destruct items as [[[s|] arr]|]; simplify_eq/=. lia.
  - unfold additionalPropertiesSchema in Hc. simpl in Hc.
    destruct addProps as [[allows [s|]]|]; simplify_eq/=. lia.
Qed.

Lemma mapM_Err {A B} (f : A → result B) pre x post e :
  Forall (λ a, ∃ b, f a = Ok b) pre → f x = Err e →
  mapM f (pre ++ x :: post) = Err e.
Proof.
  intros Hpre Hx. induction Hpre as [|a pre [b Hb] _ IH]; simpl.
  - by rewrite Hx.
  - rewrite Hb. simpl. by rewrite IH.
Qed.

Lemma mapM_OutOfFuel {A B} (f : A → result B) pre x post :
  Forall (λ a, ∃ b, f a = Ok b) pre → f x = OutOfFuel →
  mapM f (pre ++ x :: post) = OutOfFuel.
Proof.
  intros Hpre Hx. induction Hpre as [|a pre [b Hb] _ IH]; simpl.
  - by rewrite Hx.
  - rewrite Hb. simpl. by rewrite IH.
Qed.

Section ResolverExtras.
Context `{!Collaborators}.
Implicit Types (Schemata : gmap TypeIdent JSONSchemaProps)
               (pkgByPath : gmap string Package).

Lemma resolveAllOfRefs_entry_error fuel schema contextPkg Schemata pkgByPath
    pre entry post e :
  AllOf schema = (pre ++ entry :: post)%list →
  Forall (λ a, ∃ a',
            resolveAllOfEntry (λ s pkg, resolveAllOfRefs fuel s pkg Schemata pkgByPath)
              contextPkg Schemata pkgByPath a = Ok a') pre →
  resolveAllOfEntry (λ s pkg, resolveAllOfRefs fuel s pkg Schemata pkgByPath)
    contextPkg Schemata pkgByPath entry = Err e →
  resolveAllOfRefs (S fuel) schema contextPkg Schemata pkgByPath = Err e.
Proof.
  intros HallOf Hpre Hentry. simpl. rewrite HallOf.
  by rewrite (mapM_Err _ pre entry post e Hpre Hentry).
Qed.

(** X1. An [allOf] entry with a non-empty reference that cannot be
    followed is fatal for the whole call, whatever follows it in the
    schema: when the entries before it resolve, the call returns the
    error of that entry, which is MalformedReference when the reference
    does not parse, the package error when its package path is not among
    the loaded packages (or it has none and there is no context package),
    and the schema error when the package has no type of that name. *)
Theorem resolveAllOfRefs_bad_reference_fatal
    fuel schema contextPkg Schemata pkgByPath pre entry post ref :
  AllOf schema = (pre ++ entry :: post)%list →
  Forall (λ a, ∃ a',
            resolveAllOfEntry (λ s pkg, resolveAllOfRefs fuel s pkg Schemata pkgByPath)
              contextPkg Schemata pkgByPath a = Ok a') pre →
  Ref entry = Some ref → ref ≠ EmptyString →
  (RefParts ref = None →
   resolveAllOfRefs (S fuel) schema contextPkg Schemata pkgByPath
   = Err (MalformedReference ref))
  ∧ (∀ typeName pkgPath,
       RefParts ref = Some (typeName, pkgPath) →
       (if decide (pkgPath = EmptyString) then contextPkg
        else pkgByPath !! pkgPath) = None →
       resolveAllOfRefs (S fuel) schema contextPkg Schemata pkgByPath
       = Err (PackageNotFound pkgPath ref))
  ∧ (∀ typeName pkgPath pkg,
       RefParts ref = Some (typeName, pkgPath) →
       (if decide (pkgPath = EmptyString) then contextPkg
        else pkgByPath !! pkgPath) = Some pkg →
       Schemata !! {| Package_ := Some pkg; Name := typeName |} = None →
       resolveAllOfRefs (S fuel) schema contextPkg Schemata pkgByPath
       = Err (SchemaNotFound typeName (PkgPath pkg))).
Proof.
  intros HallOf Hpre Href Hne.
  assert (hasRef entry = true) as Hhas.
  { unfold hasRef. rewrite Href. by apply negb_true_iff, String.eqb_neq. }
  repeat split.
  - intros Hparts. eapply resolveAllOfRefs_entry_error; [done..|].
    unfold resolveAllOfEntry. by rewrite Hhas, Href; simpl; rewrite Hparts.
  - intros typeName pkgPath Hparts Hpkg.
    eapply resolveAllOfRefs_entry_error; [done..|].
    unfold resolveAllOfEntry. by rewrite Hhas, Href; simpl; rewrite Hparts, Hpkg.
  - intros typeName pkgPath pkg Hparts Hpkg Hlook.
    eapply resolveAllOfRefs_entry_error; [done..|].
    unfold resolveAllOfEntry.
    by rewrite Hhas, Href; simpl; rewrite Hparts, Hpkg, Hlook.
Qed.

(** X2. A type that embeds itself makes the resolver recurse without
    end: with the type's own schema as the target of one of its [allOf]
    entries, no recursion budget yields a result, and when that entry is
    the first one every budget is exhausted. *)
Theorem resolveAllOfRefs_self_embedding_never_returns
    fuel schema pkg Schemata pkgByPath i entry ref typeName :
  AllOf schema !! i = Some entry →
  Ref entry = Some ref → ref ≠ EmptyString →
  RefParts ref = Some (typeName, EmptyString) →
  Schemata !! {| Package_ := Some pkg; Name := typeName |} = Some schema →
  (∀ schema', resolveAllOfRefs fuel schema (Some pkg) Schemata pkgByPath ≠ Ok schema')
  ∧ (i = 0 →
     resolveAllOfRefs fuel schema (Some pkg) Schemata pkgByPath = OutOfFuel).
Proof.
  intros Hentry Href Hne Hparts Hlook.
  assert (hasRef entry = true) as Hhas.
  { unfold hasRef. rewrite Href. by apply negb_true_iff, String.eqb_neq. }
  assert (∀ fuel schema',
            resolveAllOfRefs fuel schema (Some pkg) Schemata pkgByPath ≠ Ok schema')
    as Hnever.
  { clear fuel. intros fuel. induction fuel as [|fuel IH]; intros schema' Hres; [done|].
    apply resolveAllOfRefs_entries in Hres.
    destruct (Forall2_lookup_l _ _ _ _ _ Hres Hentry) as (entry' & _ & Hrel).
    rewrite Hhas in Hrel.
    destruct Hrel as (ref' & typeName' & pkgPath' & pkg' & target
                      & Href' & Hparts' & Hpkg' & Hlook' & Htarget).
    rewrite Href in Href'. injection Href' as <-.
    rewrite Hparts in Hparts'. injection Hparts' as <- <-.
    simpl in Hpkg'. injection Hpkg' as <-.
    rewrite Hlook in Hlook'. injection Hlook' as <-.
    by eapply IH. }
  split; [apply Hnever|].
  intros ->. induction fuel as [|fuel IH]; [done|].
  destruct (AllOf schema) as [|first rest] eqn:HallOf; [done|].
  injection Hentry as ->. simpl. rewrite HallOf.
  rewrite (mapM_OutOfFuel _ [] entry rest); [done|constructor|].
  unfold resolveAllOfEntry.
  rewrite Hhas, Href. simpl. rewrite Hparts. simpl. by rewrite Hlook, IH.
Qed.

Lemma Forall2_same {A} (R : A → A → Prop) l :
  Forall (λ x, R x x) l → Forall2 R l l.
Proof. induction 1; constructor; auto. Qed.

(** X3. On a schema with no reference among its [allOf] entries, at any
    depth, the resolver changes nothing: it returns the schema it was
    given, and needs no more nested calls than the schema is deep. *)
Theorem resolveAllOfRefs_without_embedded_refs
    fuel schema contextPkg Schemata pkgByPath :
  (∀ path t i entry,
     subschema path schema = Some t → AllOf t !! i = Some entry →
     hasRef entry = false) →
  (schemaDepth schema ≤ fuel)%nat →
  resolveAllOfRefs fuel schema contextPkg Schemata pkgByPath = Ok schema.
Proof.
  revert schema contextPkg.
  induction fuel as [|fuel IH]; intros schema contextPkg Hplain Hdepth.
  { destruct schema; simpl in Hdepth; lia. }
  assert (∀ st c, child st schema = Some c →
            resolveAllOfRefs fuel c contextPkg Schemata pkgByPath = Ok c) as Hchild.
  { intros st c Hc. apply IH.
    - intros path t i entry Ht. apply (Hplain (st :: path)). simpl. by rewrite Hc.
    - apply schemaDepth_child in Hc. lia. }
  simpl.
  rewrite (mapM_Ok_2 _ _ (AllOf schema)).
  2: { apply Forall2_same, Forall_lookup. intros i entry Hentry.
       unfold resolveAllOfEntry.
       rewrite (Hplain [] schema i entry eq_refl Hentry).
       by apply (Hchild (InAllOf i)). }
  simpl. rewrite (map_mapM_Ok_2 _ _ (Properties schema)).
  2: { intros k. destruct (Properties schema !! k) as [v|] eqn:Hk; constructor.
       by apply (Hchild (InProperty k)). }
  simpl.
  pose proof (Hchild InItems) as Hitems.
  pose proof (Hchild InAdditionalProperties) as HaddProps.
  destruct schema as [ref type format nullable properties items addProps
                        allOf oneOf anyOf not xMapType].
  unfold child, itemsSchema, additionalPropertiesSchema in Hitems, HaddProps.
  simpl in *.
  destruct items as [[[s|] arr]|]; simpl in *;
    [rewrite (Hitems s eq_refl); simpl|..];
    (destruct addProps as [[allows [t|]]|]; simpl in *;
     [by rewrite (HaddProps t eq_refl)|done..]).
Qed.

Lemma resolveAllOfRefs_sameFrame fuel schema contextPkg Schemata pkgByPath schema' :
  resolveAllOfRefs fuel schema contextPkg Schemata pkgByPath = Ok schema' →
  sameFrame schema schema'.
Proof.
  intros Hres.
  pose proof (resolveAllOfRefs_properties_dom _ _ _ _ _ _ Hres) as Hdom.
  destruct (resolveAllOfRefs_fuel _ _ _ _ _ _ Hres) as [n ->].
  pose proof (resolveAllOfRefs_entries _ _ _ _ _ _ Hres) as Hentries.
  apply Forall2_length in Hentries.
  simpl in Hres.
  apply bind_Ok in Hres as (allOf & _ & Hres).
  apply bind_Ok in Hres as (properties & _ & Hres).
  apply bind_Ok in Hres as (items & Hitems & Hres).
  apply bind_Ok in Hres as (addProps & HaddProps & Hres).
  injection Hres as <-. simpl in *.
  unfold sameFrame. simpl. repeat split; try done.
  - destruct (Items schema) as [[[s|] arr]|]; simpl in *.
    + by apply bind_Ok in Hitems as (s' & _ & [= <-]).
    + by injection Hitems as <-.
    + by injection Hitems as <-.
  - destruct (AdditionalProperties schema) as [[allows [s|]]|]; simpl in *.
    + by apply bind_Ok in HaddProps as (s' & _ & [= <-]).
    + by injection HaddProps as <-.
    + by injection HaddProps as <-.
Qed.

(** X4. Along a path that does not enter [allOf] the resolver keeps the
    frame of every fragment: its type, format, nullable, oneOf, anyOf,
    not and map type, its property names, the number of its [allOf]
    entries, and the array form of [items] and boolean form of
    [additionalProperties]. *)
Theorem resolveAllOfRefs_keeps_frame
    fuel schema contextPkg Schemata pkgByPath schema' path :
  resolveAllOfRefs fuel schema contextPkg Schemata pkgByPath = Ok schema' →
  outsideAllOf path →
  option_Forall2 sameFrame (subschema path schema) (subschema path schema').
Proof.
  revert fuel schema schema'.
  induction path as [|st rest IH]; intros fuel schema schema' Hres Hpath.
  - constructor. by eapply resolveAllOfRefs_sameFrame.
  - apply Forall_cons in Hpath as [Hst Hrest].
    destruct (resolveAllOfRefs_fuel _ _ _ _ _ _ Hres) as [n ->].
    simpl. destruct (resolveAllOfRefs_child _ _ _ _ _ _ st Hres Hst) as [c c' Hc|].
    + simpl. by eapply IH.
    + constructor.
Qed.

End ResolverExtras.

(** ** Further properties of the reference converter *)

Lemma string_prefix_app (pre s : string) : String.prefix pre (pre ++ s) = true.
Proof.
  induction pre as [|a pre IH]; simpl; [by destruct s|].
  destruct (ascii_dec a a); [exact IH | done].
Qed.

Lemma substring_all (s : string) : String.substring 0 (String.length s) s = s.
Proof. induction s as [|a s IH]; simpl; [done | by rewrite IH]. Qed.

Lemma trimPrefix_app (pre s : string) : trimPrefix (pre ++ s) pre = s.
Proof.
  unfold trimPrefix. rewrite string_prefix_app.
  induction pre as [|a pre IH]; simpl.
  - rewrite Nat.sub_0_r. apply substring_all.
  - exact IH.
Qed.

Section ConverterExtras.
Context `{!Collaborators}.

Lemma convertRefs_sameFrame schema contextPkg :
  sameFrame schema (convertRefs schema contextPkg).
Proof.
  destruct schema as [ref type format nullable properties items addProps
                        allOf oneOf anyOf not xMapType].
  unfold sameFrame. simpl. repeat split.
  - apply dom_fmap_L.
  - apply length_fmap.
  - by destruct items.
  - by destruct addProps.
Qed.

(** X5. The reference converter changes references only: at every path
    the converted schema has a fragment exactly where the input has one,
    with the same frame. *)
Theorem convertRefs_keeps_frame schema contextPkg path :
  option_Forall2 sameFrame
    (subschema path schema) (subschema path (convertRefs schema contextPkg)).
Proof.
  rewrite subschema_convertRefs.
  destruct (subschema path schema) as [t|]; constructor.
  apply convertRefs_sameFrame.
Qed.

(** X6. On a schema in which every reference is empty or does not
    parse, the reference converter is the identity. *)
Theorem convertRefs_without_parsed_refs schema contextPkg :
  (∀ path t r,
     subschema path schema = Some t → Ref t = Some r →
     r = EmptyString ∨ RefParts r = None) →
  convertRefs schema contextPkg = schema.
Proof.
  remember (schemaDepth schema) as n eqn:Hn. revert schema Hn.
  induction n as [n IH] using lt_wf_ind. intros schema -> Hrefs.
  assert (∀ st c, child st schema = Some c → convertRefs c contextPkg = c) as Hchild.
  { intros st c Hc. eapply IH; [by eapply schemaDepth_child | done |].
    intros path t r Ht. apply (Hrefs (st :: path)). simpl. by rewrite Hc. }
  pose proof (Hrefs [] schema) as Htop.
  destruct schema as [ref type format nullable properties items addProps
                        allOf oneOf anyOf not xMapType].
  simpl in *. f_equal.
  - destruct ref as [r|]; [|done]. simpl.
    destruct (Htop r eq_refl eq_refl) as [->|Hparts]; [done|].
    rewrite Hparts. by destruct (negb _).
  - apply map_eq. intros k. rewrite lookup_fmap.
    destruct (properties !! k) as [v|] eqn:Hk; [|done]. simpl.
    by rewrite (Hchild (InProperty k) v Hk).
  - destruct items as [[[s|] arr]|]; simpl; [|done..].
    by rewrite (Hchild InItems s eq_refl).
  - destruct addProps as [[allows [s|]]|]; simpl; [|done..].
    by rewrite (Hchild InAdditionalProperties s eq_refl).
  - apply list_eq. intros i. rewrite list_lookup_fmap.
    destruct (allOf !! i) as [v|] eqn:Hi; [|done]. simpl.
    by rewrite (Hchild (InAllOf i) v Hi).
Qed.

(** X7. The converter and the assembly loop agree on names: the
    reference the converter writes, with its [#/definitions/] prefix
    removed as the alias resolver removes it, is the definitions key the
    loop gives to the type the reference names, in the package of the
    reference or, when it has none, in the context package. *)
Theorem converted_ref_names_definition_key contextPkg r typeName pkgPath :
  r ≠ EmptyString →
  RefParts r = Some (typeName, pkgPath) →
  ∃ r', convertRef contextPkg (Some r) = Some r'
    ∧ trimPrefix r' refPrefix
      = definitionKey
          {| Package_ := if decide (pkgPath = EmptyString) then contextPkg
                         else Some {| PkgPath := pkgPath |};
             Name := typeName |}.
Proof.
  intros Hne Hparts. unfold convertRef.
  apply String.eqb_neq in Hne. rewrite Hne. simpl. rewrite Hparts.
  eexists. split; [done|].
  rewrite (trimPrefix_app refPrefix). unfold definitionKey.
  destruct contextPkg as [pkg|]; destruct (decide (pkgPath = EmptyString)) as [->|];
    done.
Qed.

End ConverterExtras.

(** ** Further properties of the sanitizer *)

Lemma droppedKey_elem_of b k :
  droppedKey b k = true ↔
  k ∈ ({[ "nullable"; "anyOf"; "oneOf"; "not" ]} : gset string)
      ∪ (if b then {[ "type"; "format" ]} else ∅).
Proof.
  rewrite droppedKey_true. destruct b;
    rewrite !elem_of_union, !elem_of_singleton, ?elem_of_empty; intuition congruence.
Qed.

(** X8. The sanitizer only removes keys: the keys of its result are the
    keys of the input but [nullable], [anyOf], [oneOf] and [not] and,
    next to a [$ref], [type] and [format]; and every key it keeps, other
    than the four it recurses into, has the value it had. *)
Theorem sanitize_only_removes (schema : gmap string json) :
  dom (sanitizeForOpenAPIV2 schema)
  = dom schema ∖ ({[ "nullable"; "anyOf"; "oneOf"; "not" ]}
                  ∪ (if bool_decide (is_Some (schema !! "$ref"))
                     then {[ "type"; "format" ]} else ∅))
  ∧ ∀ k v, sanitizeForOpenAPIV2 schema !! k = Some v →
           k ∉ ["properties"; "items"; "additionalProperties"; "allOf"] →
           schema !! k = Some v.
Proof.
  split.
  - apply set_eq. intros k.
    rewrite elem_of_difference, <- droppedKey_elem_of, !elem_of_dom, sanitize_lookup.
    destruct (droppedKey _ k).
    + split; [by intros [? ?] | by intros [_ []]].
    + rewrite fmap_is_Some. split; [by intros ? | by intros [? _]].
  - intros k v Hk Hstruct. rewrite sanitize_lookup in Hk.
    destruct (droppedKey _ k); [done|].
    destruct (schema !! k) as [x|]; [|done]. simpl in Hk.
    rewrite !not_elem_of_cons in Hstruct. destruct Hstruct as (? & ? & ? & ? & _).
    by rewrite sanitizeField_other in Hk.
Qed.

(** X9. The sanitizer recurses only into the shapes it checks for:
    [properties], [items] and [additionalProperties] that are not
    objects, and an [allOf] that is not an array, are kept as they are,
    with whatever they contain. *)
Theorem sanitize_skips_other_shapes (schema : gmap string json) k v :
  schema !! k = Some v →
  (k ∈ ["properties"; "items"; "additionalProperties"] ∧ asObject v = None)
  ∨ (k = "allOf" ∧ ∀ entries, v ≠ JArray entries) →
  sanitizeForOpenAPIV2 schema !! k = Some v.
Proof.
  intros Hk Hshape. rewrite sanitize_lookup, Hk.
  assert (droppedKey (bool_decide (is_Some (schema !! "$ref"))) k = false) as ->.
  { apply droppedKey_false.
    destruct Hshape as [[Hin _]|[-> _]];
      [repeat (apply elem_of_cons in Hin as [->|Hin]); [..|by apply elem_of_nil in Hin]|];
      (split; [intros _; split|repeat split]; discriminate). }
  simpl. f_equal. unfold sanitizeField.
  destruct Hshape as [[Hin Hobj]|[-> Harr]].
  - repeat (apply elem_of_cons in Hin as [->|Hin]);
      [..|by apply elem_of_nil in Hin]; by destruct v.
  - destruct v; try done. by destruct (Harr l).
Qed.

Lemma droppedKey_clean (f : gmap string json) k :
  f !! "nullable" = None → f !! "anyOf" = None →
  f !! "oneOf" = None → f !! "not" = None →
  (is_Some (f !! "$ref") → f !! "type" = None ∧ f !! "format" = None) →
  droppedKey (bool_decide (is_Some (f !! "$ref"))) k = true →
  f !! k = None.
Proof.
  intros ? ? ? ? Href Hk. apply droppedKey_true in Hk.
  destruct Hk as [[Hb [->| ->]]|[->|[->|[->| ->]]]]; try done;
    apply bool_decide_eq_true in Hb; by destruct (Href Hb).
Qed.

Lemma v2Clean_child st (schema c : gmap string json) :
  v2Clean schema → jchild st schema = Some c → v2Clean c.
Proof.
  intros Hclean Hc path f Hf. apply (Hclean (st :: path)). simpl. by rewrite Hc.
Qed.

Lemma sanitizeFragment_clean v :
  (∀ f, v = JObject f → v2Clean f) → sanitizeFragment v = v.
Proof.
  induction v as [v IH] using json_size_ind. intros Hclean.
  destruct v as [| | | | |m]; try done.
  specialize (Hclean m eq_refl).
  rewrite sanitizeFragment_object. f_equal. apply map_eq. intros k.
  rewrite sanitize_lookup.
  destruct (Hclean [] m eq_refl) as (Hn & Ha & Ho & Hnot & Href).
  destruct (droppedKey _ k) eqn:Hk.
  { symmetry. by eapply droppedKey_clean. }
  destruct (m !! k) as [x|] eqn:Hx; simpl; [|done]. f_equal.
  pose proof (jsize_lookup _ _ _ Hx) as Hsize.
  unfold sanitizeField.
  destruct (decide (k = "properties")) as [->|_].
  { destruct x as [| | | | |props]; try done. f_equal.
    apply map_eq. intros name. rewrite lookup_fmap.
    destruct (props !! name) as [y|] eqn:Hy; simpl; [|done]. f_equal.
    apply IH.
    - apply jsize_lookup in Hy. lia.
    - intros f ->. apply (v2Clean_child (JProperty name) m); [done|].
      simpl. rewrite Hx. simpl. by rewrite Hy. }
  destruct (decide (k = "items" ∨ k = "additionalProperties")) as [Hor|_].
  { destruct x as [| | | | |fields]; try done.
    apply IH; [done|]. intros f [= <-].
    destruct Hor as [-> | ->].
    - apply (v2Clean_child JItems m); [done|]. simpl. by rewrite Hx.
    - apply (v2Clean_child JAdditionalProperties m); [done|]. simpl. by rewrite Hx. }
  destruct (decide (k = "allOf")) as [->|_]; [|done].
  destruct x as [| | | |entries|]; try done. f_equal.
  apply list_eq. intros i. rewrite list_lookup_fmap.
  destruct (entries !! i) as [y|] eqn:Hy; simpl; [|done]. f_equal.
  apply IH.
  - apply list_elem_of_lookup_2, jsize_elem in Hy. lia.
  - intros f ->. apply (v2Clean_child (JAllOf i) m); [done|].
    simpl. rewrite Hx. by rewrite Hy.
Qed.

Lemma sanitize_fixed_clean (schema : gmap string json) :
  sanitizeForOpenAPIV2 schema = schema → v2Clean schema.
Proof.
  intros Hfix path f Hf.
  assert (sanitizeForOpenAPIV2 f = f) as Hf'.
  { rewrite <- Hfix, fragmentAt_sanitize in Hf.
    destruct (fragmentAt path schema) as [g|] eqn:Hg; [|done].
    simpl in Hf. injection Hf as <-.
    pose proof (sanitizeFragment_idem (JObject g)) as Hidem.
    rewrite !sanitizeFragment_object in Hidem. by injection Hidem. }
  assert (∀ k, droppedKey (bool_decide (is_Some (f !! "$ref"))) k = true →
               f !! k = None) as Hdropped.
  { intros k Hk. rewrite <- Hf' at 1. by rewrite sanitize_lookup, Hk. }
  repeat split; try (apply Hdropped; by destruct (bool_decide _)).
  - apply Hdropped. by rewrite bool_decide_eq_true_2.
  - apply Hdropped. by rewrite bool_decide_eq_true_2.
Qed.

(** X10. The definitions the sanitizer leaves unchanged are exactly
    those with nothing to remove: no fragment at any path through
    [properties], [items], [additionalProperties] and [allOf] has
    [nullable], [anyOf], [oneOf] or [not], nor [type] or [format] next to
    a [$ref]. *)
Theorem sanitize_fixed_iff_clean (schema : gmap string json) :
  sanitizeForOpenAPIV2 schema = schema ↔ v2Clean schema.
Proof.
  split; [apply sanitize_fixed_clean|].
  intros Hclean.
  pose proof (sanitizeFragment_clean (JObject schema)) as Hfix.
  rewrite sanitizeFragment_object in Hfix.
  assert (JObject (sanitizeForOpenAPIV2 schema) = JObject schema) as Heq.
  { apply Hfix. by intros f [= <-]. }
  by injection Heq.
Qed.

(** ** Further properties of the alias resolver *)

Lemma resolveRefDefinition_not_alias (defs : gmap string json) key :
  (∀ v, defs !! key = Some v → ¬ isAlias v) →
  resolveRefDefinition defs key = defs.
Proof.
  intros Hnot. unfold resolveRefDefinition.
  destruct (defs !! key) as [[| | | | |m]|] eqn:Hkey; try done.
  destruct (m !! "$ref") as [[| | |r| |]|] eqn:Hr; try done.
  destruct (Hnot _ eq_refl). by exists m, r.
Qed.

Lemma resolveRefDefinition_keeps_not_alias (defs : gmap string json) key k v :
  defs !! k = Some v → ¬ isAlias v → resolveRefDefinition defs key !! k = Some v.
Proof.
  intros Hk Hnot. destruct (decide (k = key)) as [->|Hne].
  - rewrite resolveRefDefinition_not_alias; [done|].
    intros v' Hv'. by simplify_eq.
  - by rewrite resolveRefDefinition_lookup_ne.
Qed.

Lemma resolveRefDefinition_dom (defs : gmap string json) key :
  dom (resolveRefDefinition defs key) = dom defs.
Proof.
  unfold resolveRefDefinition.
  destruct (defs !! key) as [[| | | | |m]|] eqn:Hkey; try done.
  destruct (m !! "$ref") as [[| | |r| |]|]; try done.
  destruct (defs !! trimPrefix r refPrefix) as [[| | | | |t]|]; try done.
  apply dom_insert_lookup_L. by rewrite Hkey.
Qed.

Lemma resolveRefDefinitions_dom order (defs : gmap string json) :
  dom (resolveRefDefinitions order defs) = dom defs.
Proof.
  revert defs. induction order as [|key order IH]; intros defs; [done|].
  by rewrite resolveRefDefinitions_cons, IH, resolveRefDefinition_dom.
Qed.

(** X11. The alias resolver neither adds nor removes a definition, leaves
    every definition that is not an object with a string [$ref] as it
    is, and leaves every key it does not visit as it is. *)
Theorem resolveRefDefinitions_touches_only_aliases order
    (defs : gmap string json) :
  dom (resolveRefDefinitions order defs) = dom defs
  ∧ (∀ k v, defs !! k = Some v → ¬ isAlias v →
            resolveRefDefinitions order defs !! k = Some v)
  ∧ (∀ k, k ∉ order → resolveRefDefinitions order defs !! k = defs !! k).
Proof.
  split; [|split].
  - apply resolveRefDefinitions_dom.
  - revert defs. induction order as [|key order IH]; intros defs k v Hk Hnot; [done|].
    rewrite resolveRefDefinitions_cons. apply IH; [|done].
    by apply resolveRefDefinition_keeps_not_alias.
  - intros k Hk. by apply resolveRefDefinitions_notin.
Qed.

(** X12. Aliases are resolved one level deep. An alias visited before
    its target takes the target's original body, and with it the
    target's own [$ref]: when the target is itself an alias, the entry is
    still a reference after the pass, now to the target's target. *)
Theorem alias_of_later_target_copies_original (defs : gmap string json)
    pre key post defMap ref targetMap :
  key ∉ pre → key ∉ post →
  trimPrefix ref refPrefix ∉ pre → trimPrefix ref refPrefix ≠ key →
  defs !! key = Some (JObject defMap) →
  defMap !! "$ref" = Some (JString ref) →
  defs !! trimPrefix ref refPrefix = Some (JObject targetMap) →
  ∃ resolved,
    resolveRefDefinitions (pre ++ key :: post) defs !! key = Some (JObject resolved)
    ∧ resolved = delete "$ref" defMap ∪ targetMap
    ∧ resolved !! "$ref" = targetMap !! "$ref".
Proof.
  intros Hpre Hpost Htpre Hne Hkey Href Htarget.
  exists (delete "$ref" defMap ∪ targetMap). split; [|split; [done|]].
  - rewrite resolveRefDefinitions_app, resolveRefDefinitions_cons.
    rewrite resolveRefDefinitions_notin by done.
    unfold resolveRefDefinition.
    rewrite resolveRefDefinitions_notin by done.
    rewrite Hkey, Href. cbv zeta.
    rewrite resolveRefDefinitions_notin by done.
    rewrite Htarget, lookup_insert_eq.
    by rewrite mergeExtras_union.
  - by rewrite lookup_union_r by apply lookup_delete_eq.
Qed.

(** X13. An alias whose reference names its own key is left exactly as it
    is, reference included. *)
Theorem self_alias_unchanged (defs : gmap string json) pre key post defMap ref :
  key ∉ pre → key ∉ post →
  defs !! key = Some (JObject defMap) →
  defMap !! "$ref" = Some (JString ref) →
  trimPrefix ref refPrefix = key →
  resolveRefDefinitions (pre ++ key :: post) defs !! key = Some (JObject defMap).
Proof.
  intros Hpre Hpost Hkey Href Hself.
  rewrite resolveRefDefinitions_app, resolveRefDefinitions_cons.
  rewrite resolveRefDefinitions_notin by done.
  unfold resolveRefDefinition.
  rewrite resolveRefDefinitions_notin by done.
  rewrite Hkey, Href. cbv zeta. rewrite Hself.
  rewrite resolveRefDefinitions_notin by done.
  rewrite Hkey, lookup_insert_eq, mergeExtras_union.
  do 2 f_equal. apply map_eq. intros k. rewrite lookup_union.
  destruct (decide (k = "$ref")) as [->|Hk].
  - rewrite lookup_delete_eq. by destruct (defMap !! "$ref").
  - rewrite lookup_delete_ne by done. by destruct (defMap !! k).
Qed.

Lemma resolveRefDefinition_lookup_ext (d1 d2 : gmap string json) key :
  d1 !! key = d2 !! key →
  (∀ m r, d1 !! key = Some (JObject m) → m !! "$ref" = Some (JString r) →
          d1 !! trimPrefix r refPrefix = d2 !! trimPrefix r refPrefix) →
  resolveRefDefinition d1 key !! key = resolveRefDefinition d2 key !! key.
Proof.
  intros Hkey Htarget. unfold resolveRefDefinition. rewrite <- Hkey.
  destruct (d1 !! key) as [[| | | | |m]|] eqn:Hk; try congruence.
  destruct (m !! "$ref") as [[| | |r| |]|] eqn:Hr; try congruence.
  rewrite <- (Htarget m r eq_refl Hr).
  destruct (d1 !! trimPrefix r refPrefix) as [[| | | | |t]|]; try congruence.
  by rewrite !lookup_insert_eq.
Qed.

Lemma resolveRefDefinitions_pointwise order (defs : gmap string json) key :
  noAliasChains defs → NoDup order →
  resolveRefDefinitions order defs !! key
  = if decide (key ∈ order) then resolveRefDefinition defs key !! key
    else defs !! key.
Proof.
  intros Hchains. revert key.
  induction order as [|k order IH] using rev_ind; intros key Hnodup.
  { by rewrite decide_False by apply not_elem_of_nil. }
  apply NoDup_app in Hnodup as (Hnodup & Hk & _).
  assert (k ∉ order) as Hk' by (intros Hin; apply (Hk k Hin); by left).
  rewrite resolveRefDefinitions_app, resolveRefDefinitions_cons. simpl.
  change (foldl resolveRefDefinition ?d []) with d.
  destruct (decide (key = k)) as [->|Hne].
  - rewrite decide_True by (apply elem_of_app; right; by left).
    apply resolveRefDefinition_lookup_ext.
    + rewrite IH by done. by rewrite decide_False.
    + intros m r Hm Hr. rewrite IH in Hm by done.
      rewrite decide_False in Hm by done.
      rewrite IH by done. case_decide; [|done].
      rewrite resolveRefDefinition_not_alias; [done|].
      intros t Ht. by eapply Hchains.
  - rewrite resolveRefDefinition_lookup_ne by done. rewrite IH by done.
    destruct (decide (key ∈ order)) as [Hin|Hin].
    + by rewrite decide_True by (apply elem_of_app; by left).
    + rewrite decide_False; [done|].
      rewrite elem_of_app, list_elem_of_singleton. tauto.
Qed.

Lemma resolveRefDefinitions_perm order order' (defs : gmap string json) :
  noAliasChains defs → NoDup order → order ≡ₚ order' →
  resolveRefDefinitions order defs = resolveRefDefinitions order' defs.
Proof.
  intros Hchains Hnodup Hperm. apply map_eq. intros key.
  rewrite !resolveRefDefinitions_pointwise; [|done|by rewrite <- Hperm|done..].
  destruct (decide (key ∈ order)) as [Hin|Hin].
  - by rewrite decide_True by by rewrite <- Hperm.
  - by rewrite decide_False by by rewrite <- Hperm.
Qed.

(** X14. When no alias refers to another alias, the result of the alias
    resolver does not depend on the order in which the keys are
    visited. *)
Theorem resolveRefDefinitions_order_independent order order'
    (defs : gmap string json) :
  noAliasChains defs → NoDup order → order ≡ₚ order' →
  resolveRefDefinitions order defs = resolveRefDefinitions order' defs.
Proof. apply resolveRefDefinitions_perm. Qed.

Lemma resolveRefDefinition_keeps_field (defs : gmap string json) key k m f v :
  defs !! k = Some (JObject m) → f ≠ "$ref" → m !! f = Some v →
  ∃ m', resolveRefDefinition defs key !! k = Some (JObject m') ∧ m' !! f = Some v.
Proof.
  intros Hk Hf Hv. destruct (decide (k = key)) as [->|Hne].
  - unfold resolveRefDefinition. rewrite Hk.
    destruct (m !! "$ref") as [[| | |r| |]|]; eauto.
    destruct (defs !! trimPrefix r refPrefix) as [[| | | | |t]|]; eauto.
    rewrite lookup_insert_eq. eexists. split; [done|].
    rewrite mergeExtras_union. apply lookup_union_Some_l.
    by rewrite lookup_delete_ne.
  - rewrite resolveRefDefinition_lookup_ne by done. eauto.
Qed.

Lemma resolveRefDefinitions_keeps_field order (defs : gmap string json) k m f v :
  defs !! k = Some (JObject m) → f ≠ "$ref" → m !! f = Some v →
  ∃ m', resolveRefDefinitions order defs !! k = Some (JObject m') ∧ m' !! f = Some v.
Proof.
  revert defs m. induction order as [|key order IH]; intros defs m Hk Hf Hv; [by eauto|].
  rewrite resolveRefDefinitions_cons.
  destruct (resolveRefDefinition_keeps_field defs key k m f v Hk Hf Hv)
    as (m' & Hk' & Hv').
  by eapply IH.
Qed.

(** X19. Alias resolution never drops or changes a field a definition
    has of its own: every field of an object definition other than
    [$ref] is in the resolved definition with the same value, whatever
    the visiting order and whatever the target holds. *)
Theorem resolveRefDefinitions_keeps_own_fields order (defs : gmap string json)
    k m f v :
  defs !! k = Some (JObject m) → f ≠ "$ref" → m !! f = Some v →
  ∃ m', resolveRefDefinitions order defs !! k = Some (JObject m') ∧ m' !! f = Some v.
Proof. apply resolveRefDefinitions_keeps_field. Qed.

Lemma noAliasChains_intro (defs : gmap string json) :
  map_Forall (λ _ v, ∀ m r t,
                v = JObject m → m !! "$ref" = Some (JString r) →
                defs !! trimPrefix r refPrefix = Some t → ¬ isAlias t) defs →
  noAliasChains defs.
Proof. intros Hall k m r t Hk. by apply (Hall k (JObject m) Hk m r t). Qed.

(** ** Further properties of the assembly *)

Lemma sanitize_fixed_pointwise (m : gmap string json) :
  sanitizeForOpenAPIV2 m = m ↔
  ∀ k v, m !! k = Some v →
    droppedKey (bool_decide (is_Some (m !! "$ref"))) k = false
    ∧ sanitizeField sanitizeFragment k v = v.
Proof.
  split.
  - intros Hfix k v Hk.
    pose proof (sanitize_lookup m k) as Hlook. rewrite Hfix, Hk in Hlook.
    destruct (droppedKey _ k); [done|]. simpl in Hlook. split; congruence.
  - intros Hall. apply map_eq. intros k. rewrite sanitize_lookup.
    destruct (m !! k) as [v|] eqn:Hk.
    + destruct (Hall k v Hk) as [-> Hfield]. simpl. by rewrite Hfield.
    + by destruct (droppedKey _ k).
Qed.

Lemma mergeExtras_fixed (defMap targetMap : gmap string json) :
  is_Some (defMap !! "$ref") →
  sanitizeForOpenAPIV2 defMap = defMap →
  sanitizeForOpenAPIV2 targetMap = targetMap →
  sanitizeForOpenAPIV2 (mergeExtras targetMap defMap) = mergeExtras targetMap defMap.
Proof.
  rewrite mergeExtras_union, !sanitize_fixed_pointwise.
  intros Href Hdef Htarget k v Hk.
  assert ((delete "$ref" defMap ∪ targetMap) !! "$ref" = targetMap !! "$ref") as ->
    by by rewrite lookup_union_r by apply lookup_delete_eq.
  apply lookup_union_Some_raw in Hk as [Hk|[_ Hk]].
  - apply lookup_delete_Some in Hk as [Hne Hk].
    destruct (Hdef k v Hk) as [Hkept Hfield]. split; [|done].
    rewrite bool_decide_eq_true_2 in Hkept by done.
    apply droppedKey_false in Hkept as (Htf & ? & ? & ? & ?).
    apply droppedKey_false. destruct (Htf eq_refl). by repeat split.
  - by apply Htarget.
Qed.

(** X15. The package index built for cross-package references holds, for
    a path, the package with that path, and holds a path exactly when
    some type of the schemata belongs to a package with it. *)
Theorem pkgByPath_holds_packages_of_schemata (Schemata : gmap TypeIdent JSONSchemaProps) path pkg :
  buildPkgByPath Schemata !! path = Some pkg ↔
  PkgPath pkg = path
  ∧ ∃ name, is_Some (Schemata !! {| Package_ := Some pkg; Name := name |}).
Proof.
  unfold buildPkgByPath. revert path pkg.
  apply (map_fold_weak_ind (λ r (m : gmap TypeIdent JSONSchemaProps),
    ∀ path pkg, r !! path = Some pkg ↔
      PkgPath pkg = path
      ∧ ∃ name, is_Some (m !! {| Package_ := Some pkg; Name := name |}))).
  - intros path pkg. rewrite lookup_empty. split; [done|].
    intros [_ [name [? Hx]]]. by rewrite lookup_empty in Hx.
  - intros [[p|] iname] x m r Hi IH path pkg; simpl.
    + destruct (decide (PkgPath p = path)) as [<-|Hne].
      * rewrite lookup_insert_eq. split.
        -- intros [= <-]. split; [done|]. exists iname. by rewrite lookup_insert_eq.
        -- intros [Hpath _]. destruct pkg, p. simpl in Hpath. by subst.
      * rewrite lookup_insert_ne by done. rewrite IH. split.
        -- intros [Hpath [name Hname]]. split; [done|]. exists name.
           rewrite lookup_insert_is_Some. destruct (decide
             ({| Package_ := Some p; Name := iname |}
              = {| Package_ := Some pkg; Name := name |})); auto.
        -- intros [Hpath [name Hname]]. split; [done|]. exists name.
           apply lookup_insert_is_Some in Hname as [Heq|[_ Hname]]; [|done].
           injection Heq as -> ->. done.
    + rewrite IH. split.
      * intros [Hpath [name Hname]]. split; [done|]. exists name.
        rewrite lookup_insert_is_Some. right. split; [done|done].
      * intros [Hpath [name Hname]]. split; [done|]. exists name.
        apply lookup_insert_is_Some in Hname as [Heq|[_ Hname]]; done.
Qed.

Section AssemblyExtras.
Context `{!Collaborators}.
Implicit Types (Schemata : gmap TypeIdent JSONSchemaProps).

(** X16. One failing type fails the whole request: when the types
    visited before it are processed and the processing of a type returns
    an error, the request returns that error and no document, whatever
    the remaining types are. (The Go code wraps the error with the name
    of the type; the error here is the cause it wraps.) *)
Theorem failing_type_aborts_request fuel root gv crdTypeSet Schemata
    pre ident post s e aliasOrder :
  (∀ j sj, j ∈ pre → Schemata !! j = Some sj →
           ∃ m, renderSchema fuel Schemata j sj = Ok m) →
  Schemata !! ident = Some s →
  renderSchema fuel Schemata ident s = Err e →
  crdTypeSet ≠ ∅ →
  buildOpenAPISchema fuel root gv crdTypeSet Schemata
    (pre ++ ident :: post)%list aliasOrder = Err e.
Proof.
  intros Hpre Hs Herr Hroots.
  unfold buildOpenAPISchema, buildDefinitions.
  rewrite decide_False by done.
  rewrite collectDefinitions_app.
  destruct (collectDefinitions_succeeds fuel root gv crdTypeSet Schemata pre ∅ Hpre)
    as [mid ->].
  simpl. rewrite Hs. unfold schemaDefinition. by rewrite Herr.
Qed.

Lemma collectDefinitions_dom fuel root gv crdTypeSet Schemata order
    (definitions defs : gmap string json) key :
  collectDefinitions fuel root gv crdTypeSet Schemata order definitions = Ok defs →
  key ∈ dom defs ↔
  key ∈ dom definitions
  ∨ ∃ ident, ident ∈ order ∧ is_Some (Schemata !! ident)
             ∧ definitionKey ident = key.
Proof.
  revert definitions. induction order as [|ident rest IH]; intros definitions Hc.
  - injection Hc as <-. split; [auto|]. intros [?|(? & Hin & _)]; [done|].
    by apply elem_of_nil in Hin.
  - simpl in Hc. destruct (Schemata !! ident) as [s|] eqn:Hs.
    + unfold schemaDefinition in Hc.
      destruct (renderSchema fuel Schemata ident s) as [m| |]; simpl in Hc; [|done..].
      rewrite (IH _ Hc), dom_insert, elem_of_union, elem_of_singleton. split.
      * intros [[->|?]|(j & Hj & ?)]; [right|by left|right].
        -- exists ident. rewrite Hs. repeat split; [left|eauto].
        -- exists j. split; [by right|done].
      * intros [?|(j & Hj & Hsome & Hkey)]; [by left; right|].
        apply elem_of_cons in Hj as [->|Hj]; [by left; left|].
        right. by exists j.
    + rewrite (IH _ Hc). split.
      * intros [?|(j & Hj & ?)]; [by left|right]. exists j. split; [by right|done].
      * intros [?|(j & Hj & Hsome & Hkey)]; [by left|].
        apply elem_of_cons in Hj as [->|Hj].
        -- rewrite Hs in Hsome. by destruct Hsome.
        -- right. by exists j.
Qed.

Lemma collectDefinitions_allSanitized fuel root gv crdTypeSet Schemata order
    (definitions defs : gmap string json) :
  allSanitized definitions →
  collectDefinitions fuel root gv crdTypeSet Schemata order definitions = Ok defs →
  allSanitized defs.
Proof.
  revert definitions. induction order as [|ident rest IH]; intros definitions Hinv Hc.
  - by injection Hc as <-.
  - simpl in Hc. destruct (Schemata !! ident) as [s|]; [|by eapply IH].
    unfold schemaDefinition in Hc.
    destruct (renderSchema fuel Schemata ident s) as [m| |]; simpl in Hc; [|done..].
    eapply IH; [|exact Hc].
    intros key v Hkey. apply lookup_insert_Some in Hkey as [[_ <-]|[_ Hkey]].
    + eexists. split; [reflexivity|].
      rewrite sanitize_annotateGVK. f_equal.
      pose proof (sanitizeFragment_idem (JObject m)) as Hidem.
      rewrite !sanitizeFragment_object in Hidem. by injection Hidem.
    + exact (Hinv _ _ Hkey).
Qed.

Lemma resolveRefDefinitions_allSanitized order (definitions : gmap string json) :
  allSanitized definitions → allSanitized (resolveRefDefinitions order definitions).
Proof.
  revert definitions. induction order as [|k order IH]; intros definitions Hinv; [done|].
  rewrite resolveRefDefinitions_cons. apply IH.
  unfold resolveRefDefinition.
  destruct (definitions !! k) as [[| | | | |defMap]|] eqn:Hk; try done.
  destruct (defMap !! "$ref") as [[| | |r| |]|] eqn:Hr; try done.
  destruct (definitions !! trimPrefix r refPrefix) as [[| | | | |targetMap]|] eqn:Ht;
    try done.
  intros key v Hkey. apply lookup_insert_Some in Hkey as [[_ <-]|[_ Hkey]];
    [|exact (Hinv _ _ Hkey)].
  eexists. split; [reflexivity|].
  destruct (Hinv _ _ Hk) as (? & [= <-] & Hdef).
  destruct (Hinv _ _ Ht) as (? & [= <-] & Htarget).
  apply mergeExtras_fixed; [by rewrite Hr|done..].
Qed.

(** X17. The keys of the returned definitions are exactly the keys of the
    types visited that have a schema, and every returned definition is
    an object with nothing left for the sanitizer to remove, at any
    depth: alias resolution, which runs after the sanitizer, brings
    nothing back. *)
Theorem final_definitions_keys_and_shape fuel root gv crdTypeSet Schemata
    order aliasOrder (final : gmap string json) :
  buildDefinitions fuel root gv crdTypeSet Schemata order aliasOrder = Ok final →
  (∀ key, key ∈ dom final ↔
          ∃ ident, ident ∈ order ∧ is_Some (Schemata !! ident)
                   ∧ definitionKey ident = key)
  ∧ (∀ key v, final !! key = Some v →
       ∃ m, v = JObject m ∧ sanitizeForOpenAPIV2 m = m ∧ v2Clean m).
Proof.
  unfold buildDefinitions. intros Hb.
  apply bind_Ok in Hb as (defs & Hdefs & [= <-]). split.
  - intros key. rewrite resolveRefDefinitions_dom.
    rewrite (collectDefinitions_dom _ _ _ _ _ _ _ _ _ Hdefs), dom_empty.
    split; [intros [Hin|?]; [by apply elem_of_empty in Hin|done] | by right].
  - intros key v Hkey.
    assert (allSanitized (resolveRefDefinitions aliasOrder defs)) as Hinv.
    { apply resolveRefDefinitions_allSanitized.
      eapply collectDefinitions_allSanitized; [|exact Hdefs].
      intros k x Hk. by rewrite lookup_empty in Hk. }
    destruct (Hinv key v Hkey) as (m & -> & Hfix).
    exists m. split; [done|]. split; [done|]. by apply sanitize_fixed_clean.
Qed.

Lemma collectDefinitions_perm fuel root gv crdTypeSet Schemata order order'
    (definitions defs : gmap string json) :
  order ≡ₚ order' →
  (∀ i j, i ∈ order → j ∈ order → is_Some (Schemata !! i) → is_Some (Schemata !! j) →
          definitionKey i = definitionKey j → i = j) →
  collectDefinitions fuel root gv crdTypeSet Schemata order definitions = Ok defs →
  collectDefinitions fuel root gv crdTypeSet Schemata order' definitions = Ok defs.
Proof.
  intros Hperm. revert definitions defs.
  induction Hperm as [|x l l' Hperm IH|x y l|l l' l'' Hperm1 IH1 Hperm2 IH2];
    intros definitions defs Hinj Hc.
  - done.
  - simpl in *. destruct (Schemata !! x) as [s|].
    + destruct (schemaDefinition _ _ _ _ _ _ _) as [[key m]| |]; simpl in *; [|done..].
      apply IH; [|done]. intros i j Hi Hj. apply Hinj; by right.
    + apply IH; [|done]. intros i j Hi Hj. apply Hinj; by right.
  - simpl in *.
    destruct (Schemata !! y) as [sy|] eqn:Hy; destruct (Schemata !! x) as [sx|] eqn:Hx;
      try done.
    unfold schemaDefinition in *.
    destruct (renderSchema fuel Schemata y sy) as [my| |] eqn:Hry; simpl in *;
      [|done..].
    destruct (renderSchema fuel Schemata x sx) as [mx| |] eqn:Hrx; simpl in *;
      [|done..].
    destruct (decide (definitionKey x = definitionKey y)) as [Heq|Hne].
    + assert (x = y) as ->.
      { apply Hinj; [by right; left|by left|by rewrite Hx|by rewrite Hy|done]. }
      rewrite Hy in Hx. injection Hx as <-.
      rewrite Hry in Hrx. by injection Hrx as <-.
    + by rewrite insert_insert_ne.
  - apply IH2; [|by apply IH1].
    intros i j Hi Hj. apply Hinj; by rewrite Hperm1.
Qed.

(** X18. When the types visited have pairwise different keys and no
    collected alias refers to another alias, the returned definitions do
    not depend on the order in which the types are visited, nor on the
    order in which the alias resolver visits the keys. *)
Theorem definitions_independent_of_visiting_order fuel root gv crdTypeSet Schemata
    order order' aliasOrder aliasOrder' (final : gmap string json) :
  order ≡ₚ order' → aliasOrder ≡ₚ aliasOrder' → NoDup aliasOrder →
  (∀ i j, i ∈ order → j ∈ order → is_Some (Schemata !! i) → is_Some (Schemata !! j) →
          definitionKey i = definitionKey j → i = j) →
  (∀ defs, collectDefinitions fuel root gv crdTypeSet Schemata order ∅ = Ok defs →
           noAliasChains defs) →
  buildDefinitions fuel root gv crdTypeSet Schemata order aliasOrder = Ok final →
  buildDefinitions fuel root gv crdTypeSet Schemata order' aliasOrder' = Ok final.
Proof.
  intros Hperm Halias Hnodup Hinj Hchains Hb. unfold buildDefinitions in *.
  apply bind_Ok in Hb as (defs & Hdefs & [= <-]).
  rewrite (collectDefinitions_perm _ _ _ _ _ _ _ _ _ Hperm Hinj Hdefs). simpl.
  f_equal. symmetry. apply resolveRefDefinitions_perm; auto.
Qed.

End AssemblyExtras.

Section AnnotationExtras.
Context `{!Collaborators}.
Implicit Types (Schemata : gmap TypeIdent JSONSchemaProps).

Lemma collectDefinitions_unique_key fuel root gv crdTypeSet Schemata order
    (definitions defs : gmap string json) ident s :
  collectDefinitions fuel root gv crdTypeSet Schemata order definitions = Ok defs →
  ident ∈ order → Schemata !! ident = Some s →
  (∀ j, j ∈ order → is_Some (Schemata !! j) →
        definitionKey j = definitionKey ident → j = ident) →
  ∃ schemaMap,
    renderSchema fuel Schemata ident s = Ok schemaMap
    ∧ defs !! definitionKey ident
      = Some (JObject (annotateGVK root gv crdTypeSet ident
                         (sanitizeForOpenAPIV2 schemaMap))).
Proof.
  revert definitions.
  induction order as [|i rest IH]; intros definitions Hc Hin Hs Huniq.
  { by apply elem_of_nil in Hin. }
  simpl in Hc.
  destruct (decide (ident ∈ rest)) as [Hrest|Hrest].
  - assert (∀ j, j ∈ rest → is_Some (Schemata !! j) →
                 definitionKey j = definitionKey ident → j = ident) as Huniq'.
    { intros j Hj. apply Huniq. by right. }
    destruct (Schemata !! i) as [si|]; [|by eapply IH].
    destruct (schemaDefinition _ _ _ _ _ _ _) as [[key m]| |]; simpl in Hc; [|done..].
    by eapply IH.
  - apply elem_of_cons in Hin as [<-|Hin]; [|done].
    rewrite Hs in Hc. unfold schemaDefinition in Hc.
    destruct (renderSchema fuel Schemata ident s) as [m| |]; simpl in Hc; [|done..].
    exists m. split; [done|].
    rewrite (collectDefinitions_other_keys _ _ _ _ _ _ _ _ _ Hc).
    + apply lookup_insert_eq.
    + intros j Hj Hdom Hkey. apply elem_of_dom in Hdom.
      apply Hrest. rewrite <- (Huniq j); [done|by right|done..].
Qed.

(** X20. A root CRD type whose key no other visited type shares has, in
    the returned definitions, its [x-kubernetes-group-version-kind]
    annotation with the group and version of the request and its own
    name as kind, also when its definition is an alias that the resolver
    rewrites. *)
Theorem root_type_definition_carries_gvk fuel root gv crdTypeSet Schemata
    order aliasOrder (final : gmap string json) ident :
  buildDefinitions fuel root gv crdTypeSet Schemata order aliasOrder = Ok final →
  ident ∈ order → is_Some (Schemata !! ident) →
  Package_ ident = Some root → Name ident ∈ crdTypeSet →
  (∀ j, j ∈ order → is_Some (Schemata !! j) →
        definitionKey j = definitionKey ident → j = ident) →
  ∃ m, final !! definitionKey ident = Some (JObject m)
    ∧ m !! "x-kubernetes-group-version-kind"
      = Some (JArray [JObject {[ "group" := JString (Group gv);
                                 "version" := JString (Version gv);
                                 "kind" := JString (Name ident) ]}]).
Proof.
  intros Hb Hin [s Hs] Hroot Hcrd Huniq. unfold buildDefinitions in Hb.
  apply bind_Ok in Hb as (defs & Hdefs & [= <-]).
  destruct (collectDefinitions_unique_key _ _ _ _ _ _ _ _ _ _ Hdefs Hin Hs Huniq)
    as (schemaMap & _ & Hkey).
  eapply resolveRefDefinitions_keeps_field; [exact Hkey|done|].
  unfold annotateGVK.
  rewrite !bool_decide_eq_true_2 by done. apply lookup_insert_eq.
Qed.

End AnnotationExtras.

(** ** The claims on the worked examples *)

#[local] Existing Instance reference.

(** C1, counterexample. The packages [example.com/api/v1] and
    [example.com/api.v1] both declare [Foo]; the two identifiers differ
    and get the same key, and in either visiting order the request
    succeeds with a document that holds one definition, the one visited
    last. *)
Lemma colliding_keys_no_failure :
  fooV1 ≠ fooDotV1
  ∧ definitionKey fooV1 = definitionKey fooDotV1
  ∧ buildOpenAPISchema 4 apiV1 exampleGV {["Foo"]} collidingSchemata
      [fooV1; fooDotV1] ["com.example.api.v1.Foo"]
    = Ok (Some (swaggerDocument
        {[ "com.example.api.v1.Foo" := JObject {[ "type" := JString "integer" ]} ]}))
  ∧ buildOpenAPISchema 4 apiV1 exampleGV {["Foo"]} collidingSchemata
      [fooDotV1; fooV1] ["com.example.api.v1.Foo"]
    = Ok (Some (swaggerDocument
        {[ "com.example.api.v1.Foo" := JObject
             {[ "type" := JString "string";
                "x-kubernetes-group-version-kind" := gvkOf "Foo" ]} ]})).
Proof.
  split; [discriminate|]. repeat split; reflexivity.
Qed.

(** C1, witness: the same two types, [fooDotV1] visited last. *)
Lemma colliding_definition_overwritten_witness :
  ∃ defs schemaMap,
    collectDefinitions 4 apiV1 exampleGV {["Foo"]} collidingSchemata
      ([fooV1] ++ fooDotV1 :: [])%list ∅ = Ok defs
    ∧ schemaDefinition 4 apiV1 exampleGV {["Foo"]} collidingSchemata
        fooDotV1 (typedSchema "integer")
      = Ok (definitionKey fooDotV1, schemaMap)
    ∧ defs !! definitionKey fooDotV1 = Some (JObject schemaMap)
    ∧ buildDefinitions 4 apiV1 exampleGV {["Foo"]} collidingSchemata
        ([fooV1] ++ fooDotV1 :: [])%list ["com.example.api.v1.Foo"]
      = Ok (resolveRefDefinitions ["com.example.api.v1.Foo"] defs).
Proof.
  apply (@colliding_definition_overwritten reference).
  - intros j sj Hj Hlook.
    apply elem_of_app in Hj as [Hj|Hj]; apply list_elem_of_In in Hj;
      simpl in Hj; destruct Hj as [<-|Hj]; try done;
      vm_compute in Hlook; injection Hlook as <-;
      eexists; reflexivity.
  - reflexivity.
  - intros j Hj. by apply elem_of_nil in Hj.
Defined.

(** C2, counterexample. [Foo] is an alias of [Bar] whose schema carries
    [type: object] next to its reference. The code sanitizes first, which
    drops that type, and [Foo] ends with the type of [Bar]; sanitizing
    the alias-resolved map would leave [Foo] with its own type. *)
Lemma sanitize_last_differs :
  buildDefinitions 4 apiV1 exampleGV {["Widget"]} aliasSchemata
      aliasTypeOrder aliasKeyOrder
    = Ok {[ "com.example.api.v1.Widget" := JObject
              {[ "type" := JString "object";
                 "properties" := JObject
                   {[ "foo" := JObject
                        {[ "$ref" := JString "#/definitions/com.example.api.v1.Foo" ]} ]};
                 "x-kubernetes-group-version-kind" := gvkOf "Widget" ]};
            "com.example.api.v1.Foo" := JObject {[ "type" := JString "string" ]};
            "com.example.api.v1.Bar" := JObject {[ "type" := JString "string" ]} ]}
  ∧ buildDefinitionsSanitizeLast 4 apiV1 exampleGV {["Widget"]}
      aliasSchemata aliasTypeOrder aliasKeyOrder
    = Ok {[ "com.example.api.v1.Widget" := JObject
              {[ "type" := JString "object";
                 "properties" := JObject
                   {[ "foo" := JObject
                        {[ "$ref" := JString "#/definitions/com.example.api.v1.Foo" ]} ]};
                 "x-kubernetes-group-version-kind" := gvkOf "Widget" ]};
            "com.example.api.v1.Foo" := JObject {[ "type" := JString "object" ]};
            "com.example.api.v1.Bar" := JObject {[ "type" := JString "string" ]} ]}
  ∧ buildDefinitions 4 apiV1 exampleGV {["Widget"]} aliasSchemata
      aliasTypeOrder aliasKeyOrder
    ≠ buildDefinitionsSanitizeLast 4 apiV1 exampleGV {["Widget"]}
        aliasSchemata aliasTypeOrder aliasKeyOrder.
Proof.
  split; [reflexivity|]. split; [reflexivity|].
  intros Heq.
  apply (f_equal (λ r, match r with
                       | Ok m => m !! "com.example.api.v1.Foo"
                       | _ => None
                       end)) in Heq.
  vm_compute in Heq. discriminate.
Qed.

(** C3, counterexample. The reference [WidgetSpec] lacks the
    [#/definitions/] prefix and does not parse; the converter returns it
    as it is and the request succeeds with the reference still in the
    document. *)
Lemma unparsed_ref_left_silently :
  RefParts "WidgetSpec" = None
  ∧ convertRefs (refSchema "WidgetSpec") (Some apiV1) = refSchema "WidgetSpec"
  ∧ buildOpenAPISchema 4 apiV1 exampleGV {["Widget"]} unparsedSchemata
      [localIdent "Widget"] ["com.example.api.v1.Widget"]
    = Ok (Some (swaggerDocument
        {[ "com.example.api.v1.Widget" := JObject
             {[ "type" := JString "object";
                "properties" := JObject
                  {[ "spec" := JObject {[ "$ref" := JString "WidgetSpec" ]} ]};
                "x-kubernetes-group-version-kind" := gvkOf "Widget" ]} ]})).
Proof. repeat split; reflexivity. Qed.

(** C3, witness: a local reference in a property gets the package of its
    context. *)
Lemma convertRefs_rewrites_parsed_refs_witness :
  ∃ t', subschema [InProperty "spec"] (convertRefs widgetSchema (Some apiV1)) = Some t'
    ∧ Ref t' = Some "#/definitions/com.example.api.v1.WidgetSpec".
Proof.
  destruct (@convertRefs_rewrites_parsed_refs reference widgetSchema (Some apiV1)
              [InProperty "spec"] (refSchema "#/definitions/WidgetSpec") eq_refl)
    as (t' & Ht' & Hparsed & _).
  exists t'. split; [exact Ht'|].
  apply (Hparsed "#/definitions/WidgetSpec" "WidgetSpec" EmptyString);
    [reflexivity | discriminate | reflexivity].
Defined.



(** C6, witness: the property [owner] of a definition loses [nullable]
    and, next to its [$ref], [type]; its vendor extension stays. *)
Lemma sanitize_strips_and_preserves_witness :
  ∃ f', fragmentAt [JProperty "owner"] (sanitizeForOpenAPIV2 taggedDefinition) = Some f'
    ∧ f' !! "nullable" = None
    ∧ f' !! "type" = None
    ∧ f' !! "x-kubernetes-preserve-unknown-fields" = Some (JBool true).
Proof.
  destruct (sanitize_strips_and_preserves taggedDefinition [JProperty "owner"]
              ownerFragment eq_refl)
    as (f' & Hf' & Hnullable & _ & _ & _ & Hreftype & _ & Hvendor).
  exists f'. split; [exact Hf'|]. split; [exact Hnullable|]. split.
  - apply Hreftype. eexists. reflexivity.
  - rewrite (Hvendor "x-kubernetes-preserve-unknown-fields" eq_refl). reflexivity.
Defined.

(** C7, witness: the alias with [x-marker] takes the body of [X] and
    keeps its marker. *)
Lemma alias_takes_target_body_witness :
  resolveRefDefinitions ([] ++ "Alias" :: ["X"])%list markedDefinitions !! "Alias"
  = Some (JObject (delete "$ref" markedAlias ∪ targetX)).
Proof.
  destruct (alias_takes_target_body markedDefinitions [] "Alias" ["X"]
              markedAlias "#/definitions/X" targetX)
    as (targetNow & _ & Hplain & Hresolved).
  - apply not_elem_of_nil.
  - apply not_elem_of_cons. split; [discriminate | apply not_elem_of_nil].
  - reflexivity.
  - reflexivity.
  - reflexivity.
  - rewrite Hplain in Hresolved; [exact Hresolved|].
    intros r. discriminate.
Defined.

(** C8, witness: the reference of the property [spec] survives the
    resolution of the [allOf] entry next to it. *)
Lemma resolveAllOfRefs_keeps_outer_refs_witness :
  Ref <$> subschema [InProperty "spec"] mixedResolved
  = Ref <$> subschema [InProperty "spec"] mixedSchema.
Proof.
  apply (@resolveAllOfRefs_keeps_outer_refs reference 4 mixedSchema (Some apiV1)
           chainSchemata (buildPkgByPath chainSchemata) mixedResolved).
  - reflexivity.
  - repeat constructor.
Defined.

(** C9, witness: [Handle] refers to a definition that does not exist; it
    is left as it is and the request returns its definitions. *)
Lemma dangling_alias_tolerated_witness :
  resolveRefDefinitions ["com.example.api.v1.Handle"; "com.example.api.v1.Widget"]
      danglingDefinitions !! "com.example.api.v1.Handle"
    = Some (JObject danglingAlias)
  ∧ buildDefinitions 4 apiV1 exampleGV {["Widget"]} danglingSchemata
      [localIdent "Widget"; localIdent "Handle"]
      ["com.example.api.v1.Handle"; "com.example.api.v1.Widget"]
    = Ok (resolveRefDefinitions
            ["com.example.api.v1.Handle"; "com.example.api.v1.Widget"]
            danglingDefinitions).
Proof.
  destruct (@dangling_alias_tolerated reference
              ["com.example.api.v1.Handle"; "com.example.api.v1.Widget"]
              danglingDefinitions "com.example.api.v1.Handle" danglingAlias
              "#/definitions/com.example.api.v1.Missing" eq_refl eq_refl eq_refl)
    as [Hleft Hbuild].
  split; [exact Hleft|].
  apply Hbuild. reflexivity.
Defined.

(** C10, witness: the one [allOf] entry of [mixedSchema] has a reference
    to [C] next to a type, a property, [nullable] and an extension; the
    call returns a schema whose entry is the resolved schema of [C], with
    nothing of the entry. *)
Lemma allOf_entry_replaced_witness :
  ∃ schema',
    resolveAllOfRefs 4 mixedSchema (Some apiV1) chainSchemata
      (buildPkgByPath chainSchemata) = Ok schema'
    ∧ AllOf schema' = [structSchema {[ "c" := typedSchema "string" ]} []].
Proof.
  destruct (@allOf_entry_replaced reference 3 mixedSchema (Some apiV1)
              chainSchemata (buildPkgByPath chainSchemata))
    as (schema' & Hres & Hentries).
  - apply resolvesWithin_intro.
    + constructor; [|constructor].
      exists (structSchema {[ "c" := typedSchema "string" ]} []), apiV1. split.
      * exists "#/definitions/C", "C", EmptyString. repeat split; reflexivity.
      * apply resolvesWithin_intro; [constructor| |discriminate..].
        apply map_Forall_singleton. by apply resolvesWithin_leaf.
    + apply map_Forall_singleton. by apply resolvesWithin_leaf.
    + discriminate.
    + discriminate.
  - exists schema'. split; [exact Hres|].
    change (AllOf mixedSchema) with [entryWithSiblings] in Hentries.
    apply Forall2_cons_inv_l in Hentries as (entry' & rest & Hentry & Hrest & ->).
    apply Forall2_nil_inv_l in Hrest as ->.
    destruct Hentry as (target & pkg & Hto & Htarget).
    destruct Hto as (ref & typeName & pkgPath & Href & Hparts & Hpkg & Hlook).
    injection Href as <-. injection Hparts as <- <-.
    injection Hpkg as <-. injection Hlook as <-.
    injection Htarget as <-. reflexivity.
Defined.

(** ** The further properties on the worked examples *)

(** X1, witness: after an entry that resolves, a reference that does not
    parse, one to a package that is not loaded and one to a type that
    does not exist. *)
Lemma resolveAllOfRefs_bad_reference_fatal_witness :
  resolveAllOfRefs 2 (brokenSchema "WidgetSpec") (Some apiV1)
      chainSchemata (buildPkgByPath chainSchemata)
    = Err (MalformedReference "WidgetSpec")
  ∧ resolveAllOfRefs 2 (brokenSchema "#/definitions/other.io~1api~0Pod") (Some apiV1)
      chainSchemata (buildPkgByPath chainSchemata)
    = Err (PackageNotFound "other.io/api" "#/definitions/other.io~1api~0Pod")
  ∧ resolveAllOfRefs 2 (brokenSchema "#/definitions/Missing") (Some apiV1)
      chainSchemata (buildPkgByPath chainSchemata)
    = Err (SchemaNotFound "Missing" "example.com/api/v1").
Proof.
  assert (Forall (λ a, ∃ a',
            resolveAllOfEntry
              (λ s pkg, resolveAllOfRefs 1 s pkg chainSchemata
                          (buildPkgByPath chainSchemata))
              (Some apiV1) chainSchemata (buildPkgByPath chainSchemata) a = Ok a')
            [structSchema ∅ []]) as Hpre.
  { constructor; [|constructor]. eexists. reflexivity. }
  split; [|split].
  - destruct (@resolveAllOfRefs_bad_reference_fatal reference 1
                (brokenSchema "WidgetSpec") (Some apiV1) chainSchemata
                (buildPkgByPath chainSchemata) [structSchema ∅ []]
                (refSchema "WidgetSpec") [] "WidgetSpec" eq_refl Hpre eq_refl)
      as (Hmalformed & _ & _); [discriminate|].
    apply Hmalformed. reflexivity.
  - destruct (@resolveAllOfRefs_bad_reference_fatal reference 1
                (brokenSchema "#/definitions/other.io~1api~0Pod") (Some apiV1)
                chainSchemata (buildPkgByPath chainSchemata) [structSchema ∅ []]
                (refSchema "#/definitions/other.io~1api~0Pod") []
                "#/definitions/other.io~1api~0Pod" eq_refl Hpre eq_refl)
      as (_ & Hpackage & _); [discriminate|].
    apply (Hpackage "Pod" "other.io/api"); reflexivity.
  - destruct (@resolveAllOfRefs_bad_reference_fatal reference 1
                (brokenSchema "#/definitions/Missing") (Some apiV1)
                chainSchemata (buildPkgByPath chainSchemata) [structSchema ∅ []]
                (refSchema "#/definitions/Missing") []
                "#/definitions/Missing" eq_refl Hpre eq_refl)
      as (_ & _ & Hschema); [discriminate|].
    apply (Hschema "Missing" EmptyString apiV1); reflexivity.
Defined.

(** X2, witness: [Loop] embeds [Loop]. *)
Lemma resolveAllOfRefs_self_embedding_never_returns_witness :
  resolveAllOfRefs 7 loopSchema (Some apiV1) loopSchemata (buildPkgByPath loopSchemata)
  = OutOfFuel.
Proof.
  destruct (@resolveAllOfRefs_self_embedding_never_returns reference 7 loopSchema
              apiV1 loopSchemata (buildPkgByPath loopSchemata) 0
              (refSchema "#/definitions/Loop") "#/definitions/Loop" "Loop"
              eq_refl eq_refl)
    as [_ Hfuel]; [discriminate | reflexivity | reflexivity |].
  apply Hfuel. reflexivity.
Defined.

(** X3, witness: a reference in a property is not followed. *)
Lemma resolveAllOfRefs_without_embedded_refs_witness :
  resolveAllOfRefs 2 widgetSchema (Some apiV1) chainSchemata
    (buildPkgByPath chainSchemata) = Ok widgetSchema.
Proof.
  apply (@resolveAllOfRefs_without_embedded_refs reference).
  - intros path t i entry Ht Hentry.
    assert (AllOf t = []) as Hnone; [|by rewrite Hnone in Hentry].
    destruct path as [|[name|n| |] rest]; simpl in Ht; try discriminate.
    + by injection Ht as <-.
    + destruct (decide (name = "spec")) as [->|Hne].
      * rewrite lookup_singleton_eq in Ht. simpl in Ht.
        destruct rest as [|[name'|n'| |] rest']; simpl in Ht; try discriminate.
        by injection Ht as <-.
      * by rewrite lookup_singleton_ne in Ht.
  - vm_compute. lia.
Defined.

(** X4, witness: the root of a schema whose [allOf] entry is replaced. *)
Lemma resolveAllOfRefs_keeps_frame_witness :
  option_Forall2 sameFrame (subschema [] mixedSchema) (subschema [] mixedResolved).
Proof.
  apply (@resolveAllOfRefs_keeps_frame reference 4 mixedSchema (Some apiV1)
           chainSchemata (buildPkgByPath chainSchemata) mixedResolved []).
  - reflexivity.
  - constructor.
Defined.

(** X6, witness: the one reference of the schema does not parse. *)
Lemma convertRefs_without_parsed_refs_witness :
  convertRefs (structSchema {[ "spec" := refSchema "WidgetSpec" ]} []) (Some apiV1)
  = structSchema {[ "spec" := refSchema "WidgetSpec" ]} [].
Proof.
  apply (@convertRefs_without_parsed_refs reference).
  intros path t r Ht Hr.
  destruct path as [|[name|n| |] rest]; simpl in Ht; try discriminate.
  - by injection Ht as <-.
  - destruct (decide (name = "spec")) as [->|Hne].
    + rewrite lookup_singleton_eq in Ht. simpl in Ht.
      destruct rest as [|[name'|n'| |] rest']; simpl in Ht; try discriminate.
      injection Ht as <-. injection Hr as <-. by right.
    + by rewrite lookup_singleton_ne in Ht.
Defined.

(** X7, witness: a reference to [WidgetSpec] of the context package. *)
Lemma converted_ref_names_definition_key_witness :
  ∃ r', convertRef (Some apiV1) (Some "#/definitions/WidgetSpec") = Some r'
    ∧ trimPrefix r' refPrefix = definitionKey (localIdent "WidgetSpec").
Proof.
  apply (@converted_ref_names_definition_key reference (Some apiV1)
           "#/definitions/WidgetSpec" "WidgetSpec" EmptyString).
  - discriminate.
  - reflexivity.
Defined.

(** X9, witness: [items] as an array keeps the [nullable] inside it. *)
Lemma sanitize_skips_other_shapes_witness :
  sanitizeForOpenAPIV2 tupleItems !! "items"
  = Some (JArray [JObject {[ "type" := JString "string"; "nullable" := JBool true ]}]).
Proof.
  apply sanitize_skips_other_shapes.
  - reflexivity.
  - left. split; [|reflexivity]. repeat constructor.
Defined.

Lemma aliasCollected_noAliasChains : noAliasChains aliasCollected.
Proof.
  apply noAliasChains_intro. unfold aliasCollected at 2.
  repeat apply map_Forall_insert_2; [..|apply map_Forall_empty];
    intros m r t [= <-] Hr Ht; vm_compute in Hr; try discriminate.
  injection Hr as <-. vm_compute in Ht. injection Ht as <-.
  intros (m & r & [= <-] & Hr). vm_compute in Hr. discriminate.
Qed.

(** X12, witness: [A] is visited before [B] and ends as a reference to
    [C], without the type of [C]. *)
Lemma alias_of_later_target_copies_original_witness :
  ∃ resolved,
    resolveRefDefinitions ([] ++ "A" :: ["B"; "C"])%list chainedAliases !! "A"
      = Some (JObject resolved)
    ∧ resolved !! "$ref" = Some (JString "#/definitions/C")
    ∧ resolved !! "type" = None.
Proof.
  destruct (alias_of_later_target_copies_original chainedAliases [] "A" ["B"; "C"]
              {[ "$ref" := JString "#/definitions/B"; "x-a" := JBool true ]}
              "#/definitions/B"
              {[ "$ref" := JString "#/definitions/C"; "x-b" := JBool true ]})
    as (resolved & Hresolved & Hbody & Href).
  - apply not_elem_of_nil.
  - intros Hin. apply list_elem_of_In in Hin. simpl in Hin.
    destruct Hin as [?|[?|[]]]; discriminate.
  - apply not_elem_of_nil.
  - discriminate.
  - reflexivity.
  - reflexivity.
  - reflexivity.
  - exists resolved. split; [exact Hresolved|]. split; [exact Href|].
    rewrite Hbody. reflexivity.
Defined.

(** X13, witness. *)
Lemma self_alias_unchanged_witness :
  resolveRefDefinitions ([] ++ "Self" :: [])%list {[ "Self" := JObject selfAlias ]}
    !! "Self"
  = Some (JObject selfAlias).
Proof.
  apply (self_alias_unchanged {[ "Self" := JObject selfAlias ]} [] "Self" []
           selfAlias "#/definitions/Self").
  - apply not_elem_of_nil.
  - apply not_elem_of_nil.
  - reflexivity.
  - reflexivity.
  - reflexivity.
Defined.

(** X14, witness: the three definitions of the alias example, visited in
    both directions. *)
Lemma resolveRefDefinitions_order_independent_witness :
  resolveRefDefinitions aliasKeyOrder aliasCollected
  = resolveRefDefinitions (reverse aliasKeyOrder) aliasCollected.
Proof.
  apply resolveRefDefinitions_order_independent.
  - exact aliasCollected_noAliasChains.
  - apply (bool_decide_unpack _). reflexivity.
  - symmetry. apply reverse_Permutation.
Defined.

(** X19, witness: the marker of the alias survives its resolution. *)
Lemma resolveRefDefinitions_keeps_own_fields_witness :
  ∃ m', resolveRefDefinitions ["Alias"; "X"] markedDefinitions !! "Alias"
        = Some (JObject m')
    ∧ m' !! "x-marker" = Some (JBool true).
Proof.
  apply (resolveRefDefinitions_keeps_own_fields ["Alias"; "X"] markedDefinitions
           "Alias" markedAlias "x-marker" (JBool true)).
  - reflexivity.
  - discriminate.
  - reflexivity.
Defined.

(** X16, witness: the one type of the request embeds a type that does not
    exist. *)
Lemma failing_type_aborts_request_witness :
  buildOpenAPISchema 4 apiV1 exampleGV {["Widget"]} brokenSchemata
    ([] ++ localIdent "Widget" :: [])%list []
  = Err (SchemaNotFound "Missing" "example.com/api/v1").
Proof.
  apply (@failing_type_aborts_request reference 4 apiV1 exampleGV {["Widget"]}
           brokenSchemata [] (localIdent "Widget") []
           (structSchema ∅ [refSchema "#/definitions/Missing"])).
  - intros j sj Hj. by apply elem_of_nil in Hj.
  - reflexivity.
  - reflexivity.
  - intros Hempty.
    apply (f_equal (λ s : gset string, bool_decide ("Widget" ∈ s))) in Hempty.
    vm_compute in Hempty. discriminate.
Defined.

(** X17, witness: the alias example. *)
Lemma final_definitions_keys_and_shape_witness :
  (∀ key, key ∈ dom aliasFinal ↔
          ∃ ident, ident ∈ aliasTypeOrder ∧ is_Some (aliasSchemata !! ident)
                   ∧ definitionKey ident = key)
  ∧ (∀ key v, aliasFinal !! key = Some v →
       ∃ m, v = JObject m ∧ sanitizeForOpenAPIV2 m = m ∧ v2Clean m).
Proof.
  apply (@final_definitions_keys_and_shape reference 4 apiV1 exampleGV {["Widget"]}
           aliasSchemata aliasTypeOrder aliasKeyOrder aliasFinal).
  reflexivity.
Defined.

(** X18, witness: the alias example with both loops reversed. *)
Lemma definitions_independent_of_visiting_order_witness :
  buildDefinitions 4 apiV1 exampleGV {["Widget"]} aliasSchemata
    (reverse aliasTypeOrder) (reverse aliasKeyOrder) = Ok aliasFinal.
Proof.
  apply (@definitions_independent_of_visiting_order reference 4 apiV1 exampleGV
           {["Widget"]} aliasSchemata aliasTypeOrder (reverse aliasTypeOrder)
           aliasKeyOrder (reverse aliasKeyOrder) aliasFinal).
  - symmetry. apply reverse_Permutation.
  - symmetry. apply reverse_Permutation.
  - apply (bool_decide_unpack _). reflexivity.
  - intros i j Hi Hj _ _ Hkey.
    apply list_elem_of_In in Hi, Hj. unfold aliasTypeOrder in Hi, Hj.
    simpl in Hi, Hj.
    destruct Hi as [<-|[<-|[<-|[]]]], Hj as [<-|[<-|[<-|[]]]];
      try reflexivity; vm_compute in Hkey; discriminate.
  - intros defs Hdefs.
    change (Ok aliasCollected = Ok defs) in Hdefs. injection Hdefs as <-.
    exact aliasCollected_noAliasChains.
  - reflexivity.
Defined.

(** X20, witness: [Widget] of the alias example. *)
Lemma root_type_definition_carries_gvk_witness :
  ∃ m, aliasFinal !! definitionKey (localIdent "Widget") = Some (JObject m)
    ∧ m !! "x-kubernetes-group-version-kind"
      = Some (JArray [JObject {[ "group" := JString (Group exampleGV);
                                 "version" := JString (Version exampleGV);
                                 "kind" := JString "Widget" ]}]).
Proof.
  apply (@root_type_definition_carries_gvk reference 4 apiV1 exampleGV {["Widget"]}
           aliasSchemata aliasTypeOrder aliasKeyOrder aliasFinal (localIdent "Widget")).
  - reflexivity.
  - constructor.
  - eexists. reflexivity.
  - reflexivity.
  - apply elem_of_singleton. reflexivity.
  - intros j Hj _ Hkey.
    apply list_elem_of_In in Hj. unfold aliasTypeOrder in Hj. simpl in Hj.
    destruct Hj as [<-|[<-|[<-|[]]]]; try reflexivity;
      vm_compute in Hkey; discriminate.
Defined.
